(** * Jigsaw puzzle generator and drag-and-drop game

    A shallow embedding of [types.ts], [utils/puzzleGenerator.ts] and the
    pointer handlers of [components/JigsawGame.tsx], followed by the
    properties of the generation engine and of the interaction layer.

    Number model.  Integer-valued numbers (grid sizes, loop counters,
    piece ids, edge values, z-indices) are [Z] or [nat].  A JavaScript
    [number] that carries a pixel quantity is read in two ways.

    - The generator and the game are embedded over exact reals ([R]):
      [+ - * /], [Math.sqrt], [Math.min] and the comparisons are the exact
      ones.  What is proved on this embedding is structural (loops, the
      promise, ids, locks, z-order, which pieces an event touches) or is
      stated for the fields of the layout of the run itself; it does not
      depend on how a double rounds.

    - Where a statement is about the numbers themselves, the code is
      embedded a second time over the kernel's binary64 floats, whose
      [+ - * /], [sqrt] and comparisons are the IEEE operations the
      JavaScript engine performs: module [Binary64] for the layout planner
      (aspect fit, [Math.round], grid sizing) and module [Binary64Game]
      for the release of a piece.  The two embeddings differ where
      rounding decides: a 1000 x 1300 image at grid size 5 has 7 rows over
      exact reals and 6 in binary64, as in the browser. *)

From Stdlib Require Import Reals Lra Lia ZArith String.
From Stdlib Require PrimFloat FloatOps SpecFloat.
From stdpp Require Import base list option.

(** ** types.ts *)

(** [enum Difficulty { Easy = 3, Medium = 5, Hard = 10 }] *)
Inductive Difficulty := Easy | Medium | Hard.

Definition Difficulty_value (d : Difficulty) : Z :=
  match d with
  | Easy => 3
  | Medium => 5
  | Hard => 10
  end.

Module Point.
Record t := mk { x : R; y : R }.
End Point.

(** [0]: flat, [1]: tab, [-1]: slot. *)
Module PieceShape.
Record t := mk { top : Z; right : Z; bottom : Z; left : Z }.

Definition set_top (v : Z) (s : t) : t := mk v (right s) (bottom s) (left s).
Definition set_right (v : Z) (s : t) : t := mk (top s) v (bottom s) (left s).
Definition set_bottom (v : Z) (s : t) : t := mk (top s) (right s) v (left s).
Definition set_left (v : Z) (s : t) : t := mk (top s) (right s) (bottom s) v.
End PieceShape.

Module PuzzlePiece.
Record t := mk {
  id : nat;
  row : nat;
  col : nat;
  correctPos : Point.t;
  currentPos : Point.t;
  shape : PieceShape.t;
  imgUrl : string;
  width : R;
  height : R;
  isLocked : bool;
  zIndex : Z
}.

(** [{ ...p, zIndex: z }] *)
Definition with_zIndex (z : Z) (p : t) : t :=
  mk (id p) (row p) (col p) (correctPos p) (currentPos p) (shape p)
     (imgUrl p) (width p) (height p) (isLocked p) z.

(** [{ ...p, currentPos: pos }] *)
Definition with_currentPos (pos : Point.t) (p : t) : t :=
  mk (id p) (row p) (col p) (correctPos p) pos (shape p)
     (imgUrl p) (width p) (height p) (isLocked p) (zIndex p).

(** [{ ...p, currentPos: p.correctPos, isLocked: true, zIndex: 0 }] *)
Definition snapped (p : t) : t :=
  mk (id p) (row p) (col p) (correctPos p) (correctPos p) (shape p)
     (imgUrl p) (width p) (height p) true 0.
End PuzzlePiece.

(** ** utils/puzzleGenerator.ts: the layout planner *)

(** [Math.round]: the nearest integer, a tie going up. *)
Definition Math_round (v : R) : Z := Int_part (v + / 2).

Record Layout := mkLayout {
  puzzleWidth : R;
  puzzleHeight : R;
  rows : Z;
  cols : Z;
  pieceWidth : R;
  pieceHeight : R;
  tabSize : R
}.

Section LayoutPlanner.
Local Open Scope R_scope.

(** [constants.ts] is not part of the sources at hand; its ratio is a
    parameter of the embedding. *)
Variable TAB_SIZE_RATIO : R.

Variables imgW imgH : R.
Variable gridSize : Z.
Variables maxContainerWidth maxContainerHeight : R.

Definition imageAspect : R := imgW / imgH.
Definition containerAspect : R := maxContainerWidth / maxContainerHeight.

(** Lines 61-71: aspect fit, as [(puzzleWidth, puzzleHeight)]. *)
Definition puzzleSize : R * R :=
  if Rgt_dec imageAspect containerAspect
  then (maxContainerWidth, maxContainerWidth / imageAspect)
  else (maxContainerHeight * imageAspect, maxContainerHeight).

(** Lines 74-83: the grid, as [(rows, cols)]. *)
Definition gridDims : Z * Z :=
  if Rge_dec imageAspect 1
  then (gridSize, Math_round (IZR gridSize * imageAspect))
  else (Math_round (IZR gridSize * (1 / imageAspect)), gridSize).

Definition layout : Layout :=
  let puzzleWidth := fst puzzleSize in
  let puzzleHeight := snd puzzleSize in
  let rows := fst gridDims in
  let cols := snd gridDims in
  let pieceWidth := puzzleWidth / IZR cols in
  let pieceHeight := puzzleHeight / IZR rows in
  let tabSize := Rmin pieceWidth pieceHeight * TAB_SIZE_RATIO in
  mkLayout puzzleWidth puzzleHeight rows cols pieceWidth pieceHeight tabSize.
End LayoutPlanner.

(** The layout planner once more, over binary64: the operations below are
    the ones the JavaScript engine executes on its doubles. *)
Module Binary64.
Import PrimFloat.

(** Lines 58-71: aspect fit, as [(puzzleWidth, puzzleHeight)]. *)
Definition puzzleSize (imgW imgH maxContainerWidth maxContainerHeight : float)
  : float * float :=
  let imageAspect := (imgW / imgH)%float in
  let containerAspect := (maxContainerWidth / maxContainerHeight)%float in
  if (containerAspect <? imageAspect)%float
  then (maxContainerWidth, (maxContainerWidth / imageAspect)%float)
  else ((maxContainerHeight * imageAspect)%float, maxContainerHeight).

(** The value of a finite double, as a fraction: [(n, d)] stands for
    [n / d], and [d] is a power of two.  [None] for NaN and the
    infinities. *)
Definition exact (v : float) : option (Z * Z) :=
  match FloatOps.Prim2SF v with
  | SpecFloat.S754_zero _ => Some (0, 1)%Z
  | SpecFloat.S754_finite s m e =>
      let n := if s then Z.neg m else Z.pos m in
      Some (if (0 <=? e)%Z then (n * 2 ^ e, 1)%Z else (n, 2 ^ (- e))%Z)
  | _ => None
  end.

(** The double nearest to an integer: the integer itself when a double
    holds it, as it does below [2 ^ 53]. *)
Definition ofZ (z : Z) : float :=
  FloatOps.SF2Prim (SpecFloat.binary_normalize FloatOps.prec FloatOps.emax z 0 false).

(** [Math.round(v)]: for a finite [v], [floor(v + 1/2)] on the value of
    [v] with no rounding in between, and [-0] where that is 0 and [v] is
    negative or [-0]; [v] itself when it is NaN or infinite. *)
Definition Math_round (v : float) : float :=
  match exact v with
  | Some (n, d) =>
      let r := ((2 * n + d) / (2 * d))%Z in
      if (r =? 0)%Z && get_sign v then (-0)%float else ofZ r
  | None => v
  end.

(** [Math.min(a, b)]: NaN if either is, and [-0] below [+0]. *)
Definition Math_min (a b : float) : float :=
  if is_nan a || is_nan b then nan
  else if (a <? b)%float then a
  else if (b <? a)%float then b
  else if get_sign a then a else b.

Record Layout := mkLayout {
  puzzleWidth : float;
  puzzleHeight : float;
  rows : float;
  cols : float;
  pieceWidth : float;
  pieceHeight : float;
  tabSize : float
}.

(** Lines 74-83: the grid, as [(rows, cols)]. *)
Definition gridDims (imgW imgH gridSize : float) : float * float :=
  let imageAspect := (imgW / imgH)%float in
  if (1 <=? imageAspect)%float
  then (gridSize, Math_round (gridSize * imageAspect)%float)
  else (Math_round (gridSize * (1 / imageAspect))%float, gridSize).

(** Lines 57-89. *)
Definition layout (TAB_SIZE_RATIO imgW imgH gridSize
                   maxContainerWidth maxContainerHeight : float) : Layout :=
  let puzzleWidth := fst (puzzleSize imgW imgH maxContainerWidth maxContainerHeight) in
  let puzzleHeight := snd (puzzleSize imgW imgH maxContainerWidth maxContainerHeight) in
  let rows := fst (gridDims imgW imgH gridSize) in
  let cols := snd (gridDims imgW imgH gridSize) in
  let pieceWidth := (puzzleWidth / cols)%float in
  let pieceHeight := (puzzleHeight / rows)%float in
  let tabSize := (Math_min pieceWidth pieceHeight * TAB_SIZE_RATIO)%float in
  mkLayout puzzleWidth puzzleHeight rows cols pieceWidth pieceHeight tabSize.
End Binary64.

(** ** The shape assigner (lines 91-125) *)

(** A cell of [shapes] is [null] until the loop writes it. *)
Abbreviation Grid := (list (list (option PieceShape.t))).

(** [Array(rows).fill(null).map(() => Array(cols).fill(null))] *)
Definition emptyGrid (rows cols : nat) : Grid :=
  replicate rows (replicate cols None).

(** Reading [shapes[r][c]] for a property access: [None] stands for the
    [TypeError] of dereferencing [undefined] or [null]. *)
Definition getShape (g : Grid) (r c : nat) : option PieceShape.t :=
  match g !! r with
  | Some line => match line !! c with
                 | Some cell => cell
                 | None => None
                 end
  | None => None
  end.

(** [shapes[r][c] = s]; the loop only ever writes inside the allocated
    row, where the list update and the array store agree. *)
Definition setShape (g : Grid) (r c : nat) (s : PieceShape.t) : option Grid :=
  match g !! r with
  | Some line => Some (<[r := <[c := Some s]> line]> g)
  | None => None
  end.

(** [shapes[r][c].field = v], through a field setter. *)
Definition updShape (g : Grid) (r c : nat) (f : PieceShape.t -> PieceShape.t)
  : option Grid :=
  match getShape g r c with
  | Some s => setShape g r c (f s)
  | None => None
  end.

(** [for (let i = 0; i < n; i++) body]: [forLoop body i n] runs the body
    for [i], [i+1], ... [n] times, threading the state and stopping at the
    first exception. *)
Fixpoint forLoop {St : Type} (body : nat -> St -> option St)
    (i n : nat) (st : St) : option St :=
  match n with
  | O => Some st
  | S n' => match body i st with
            | Some st' => forLoop body (S i) n' st'
            | None => None
            end
  end.

(** The state of the shape loop: the grid and the number of
    [Math.random()] calls made so far. *)
Record ShapeState := mkShapeState { shapes : Grid; randomCalls : nat }.

Section ShapeAssigner.
(** [Math.random()]: the value of the [k]-th call. *)
Variable random : nat -> R.

Variables rows cols : nat.

(** [Math.random() > 0.5 ? 1 : -1] *)
Definition randomEdge (k : nat) : Z :=
  if Rgt_dec (random k) (5 / 10)%R then 1%Z else (-1)%Z.

Definition flatShape : PieceShape.t := PieceShape.mk 0 0 0 0.

(** The body of the inner loop, lines 96-123. *)
Definition assignCell (r c : nat) (st : ShapeState) : option ShapeState :=
  g0 ← setShape (shapes st) r c flatShape;
  g1 ← (if (0 <? r)%nat
        then above ← getShape g0 (r - 1) c;
             updShape g0 r c (PieceShape.set_top (- PieceShape.bottom above))
        else Some g0);
  g2 ← (if (0 <? c)%nat
        then before ← getShape g1 r (c - 1);
             updShape g1 r c (PieceShape.set_left (- PieceShape.right before))
        else Some g1);
  st3 ← (if (Z.of_nat c <? Z.of_nat cols - 1)%Z
         then g ← updShape g2 r c (PieceShape.set_right (randomEdge (randomCalls st)));
              Some (mkShapeState g (S (randomCalls st)))
         else Some (mkShapeState g2 (randomCalls st)));
  (if (Z.of_nat r <? Z.of_nat rows - 1)%Z
   then g ← updShape (shapes st3) r c
               (PieceShape.set_bottom (randomEdge (randomCalls st3)));
        Some (mkShapeState g (S (randomCalls st3)))
   else Some st3).

Definition assignRow (r : nat) (st : ShapeState) : option ShapeState :=
  forLoop (assignCell r) 0 cols st.

Definition generateShapes : option Grid :=
  shapes <$> forLoop assignRow 0 rows (mkShapeState (emptyGrid rows cols) 0).
End ShapeAssigner.

(** ** The path of a piece: [drawTab] and [drawJigsawPath] *)

(** The canvas calls that extend the current path. *)
Inductive PathCmd :=
| MoveTo (p : Point.t)
| LineTo (p : Point.t)
| BezierCurveTo (c1 c2 p : Point.t)
| ClosePath.

Section Path.
Local Open Scope R_scope.

(** Lines 276-311.  The two curves start at the current point of the
    path, which the caller has left at [(x1, y1)]. *)
Definition drawTab (x1 y1 x2 y2 dir size : R) : list PathCmd :=
  let cx := (x1 + x2) / 2 in
  let cy := (y1 + y2) / 2 in
  let dx := x2 - x1 in
  let dy := y2 - y1 in
  let len := sqrt (dx * dx + dy * dy) in
  let nx := (- dy) / len * dir in
  let ny := dx / len * dir in
  let neck := len * (2 / 10) in
  let x1_neck := cx - (dx / len) * neck in
  let y1_neck := cy - (dy / len) * neck in
  let x2_neck := cx + (dx / len) * neck in
  let y2_neck := cy + (dy / len) * neck in
  let headX := cx + nx * size in
  let headY := cy + ny * size in
  [ BezierCurveTo
      (Point.mk (x1_neck + nx * (size * (2 / 10))) (y1_neck + ny * (size * (2 / 10))))
      (Point.mk (headX - (dx / len) * size) (headY - (dy / len) * (size * (2 / 10))))
      (Point.mk (headX - (dx / len) * (size * (2 / 10))) headY);
    BezierCurveTo
      (Point.mk (headX + (dx / len) * (size * (2 / 10))) headY)
      (Point.mk (headX + (dx / len) * size) (headY + (dy / len) * (size * (2 / 10))))
      (Point.mk (x2_neck + nx * (size * (2 / 10))) (y2_neck + ny * (size * (2 / 10))));
    LineTo (Point.mk x2 y2) ].

(** One edge of [drawJigsawPath]: [shape.e !== 0 ? drawTab(...) : lineTo]. *)
Definition drawEdge (x1 y1 x2 y2 : R) (e : Z) (size : R) : list PathCmd :=
  if (e =? 0)%Z then [LineTo (Point.mk x2 y2)]
  else drawTab x1 y1 x2 y2 (IZR e) size.

(** Lines 235-274, the commands issued after [beginPath]. *)
Definition drawJigsawPath (x y w h : R) (shape : PieceShape.t) (tabSize : R)
  : list PathCmd :=
  [MoveTo (Point.mk x y)]
  ++ drawEdge x y (x + w) y (PieceShape.top shape) tabSize
  ++ drawEdge (x + w) y (x + w) (y + h) (PieceShape.right shape) tabSize
  ++ drawEdge (x + w) (y + h) x (y + h) (PieceShape.bottom shape) tabSize
  ++ drawEdge x (y + h) x y (PieceShape.left shape) tabSize
  ++ [ClosePath].

(** What a path traces, after the canvas specification: a straight
    segment for [lineTo] and [closePath], a cubic Bezier curve from the
    current point for [bezierCurveTo]. *)
Inductive Segment :=
| Line (p q : Point.t)
| Cubic (p0 p1 p2 p3 : Point.t).

(** [segmentsFrom start cur cmds]: [start] is the first point of the
    open subpath and [cur] the current point. *)
Fixpoint segmentsFrom (start cur : Point.t) (cmds : list PathCmd) : list Segment :=
  match cmds with
  | [] => []
  | MoveTo p :: rest => segmentsFrom p p rest
  | LineTo p :: rest => Line cur p :: segmentsFrom start p rest
  | BezierCurveTo c1 c2 p :: rest => Cubic cur c1 c2 p :: segmentsFrom start p rest
  | ClosePath :: rest => Line cur start :: segmentsFrom start start rest
  end.

Definition bernstein (a b c d t : R) : R :=
  (1 - t) * (1 - t) * (1 - t) * a + 3 * ((1 - t) * (1 - t)) * t * b
  + 3 * (1 - t) * (t * t) * c + t * t * t * d.

Definition pointAt (s : Segment) (t : R) : Point.t :=
  match s with
  | Line p q =>
      Point.mk ((1 - t) * Point.x p + t * Point.x q)
               ((1 - t) * Point.y p + t * Point.y q)
  | Cubic p0 p1 p2 p3 =>
      Point.mk (bernstein (Point.x p0) (Point.x p1) (Point.x p2) (Point.x p3) t)
               (bernstein (Point.y p0) (Point.y p1) (Point.y p2) (Point.y p3) t)
  end.

Definition onSegment (s : Segment) (p : Point.t) : Prop :=
  exists t : R, 0 <= t <= 1 /\ pointAt s t = p.

(** The points of the curve that [cmds] traces from the current point
    [from]. *)
Definition onPath (from : Point.t) (cmds : list PathCmd) (p : Point.t) : Prop :=
  Exists (fun s => onSegment s p) (segmentsFrom from from cmds).

(** The edge between two neighbouring pieces, as each of them draws it:
    one from [(x1, y1)] to [(x2, y2)] with edge value [d], the other from
    [(x2, y2)] back to [(x1, y1)] with the negated value. *)
Definition edgeFromThisSide (x1 y1 x2 y2 : R) (d : Z) (size : R) (p : Point.t) : Prop :=
  onPath (Point.mk x1 y1) (drawTab x1 y1 x2 y2 (IZR d) size) p.

Definition edgeFromOtherSide (x1 y1 x2 y2 : R) (d : Z) (size : R) (p : Point.t) : Prop :=
  onPath (Point.mk x2 y2) (drawTab x2 y2 x1 y1 (IZR (- d)) size) p.
End Path.

(** ** The piece rasterizer and [generatePuzzle] *)

Module Result.
(** [{ pieces, puzzleWidth, puzzleHeight }] *)
Record t := mk { pieces : list PuzzlePiece.t; puzzleWidth : R; puzzleHeight : R }.
End Result.

(** How the promise of [generatePuzzle] ends: [resolve] was called,
    [reject] was called, or neither ever is. *)
Inductive Outcome :=
| Resolved (res : Result.t)
| Rejected
| Pending.

(** The state of the second loop nest.  [resolved] records that [resolve]
    has been called; the object it was given holds the [pieces] array
    itself, so the value the caller sees is the array as the handler
    leaves it. *)
Record RasterState := mkRasterState {
  pieces : list PuzzlePiece.t;
  loadedCount : nat;
  resolved : bool
}.

(** [Array(n)] throws a [RangeError] unless [n] is an array length. *)
Definition validArrayLength (n : Z) : bool := (0 <=? n)%Z && (n <? 2 ^ 32)%Z.

Section Rasterizer.
Local Open Scope R_scope.

(** The browser: whether [canvas.getContext('2d')] yields a context for
    the canvas of cell [(r, c)], and what [canvas.toDataURL()] returns
    for it once drawn. *)
Variable getContext : nat -> nat -> bool.
Variable toDataURL : nat -> nat -> string.

Variable L : Layout.
Variable g : Grid.

(** The path the canvas of a piece is clipped to and stroked with. *)
Definition piecePath (shape : PieceShape.t) : list PathCmd :=
  drawJigsawPath (tabSize L) (tabSize L) (pieceWidth L) (pieceHeight L)
                 shape (tabSize L).

(** The object pushed at lines 204-222. *)
Definition makePiece (r c : nat) (shape : PieceShape.t) : PuzzlePiece.t :=
  let canvasWidth := pieceWidth L + tabSize L * 2 in
  let canvasHeight := pieceHeight L + tabSize L * 2 in
  {| PuzzlePiece.id := r * Z.to_nat (cols L) + c;
     PuzzlePiece.row := r;
     PuzzlePiece.col := c;
     PuzzlePiece.width := canvasWidth;
     PuzzlePiece.height := canvasHeight;
     PuzzlePiece.shape := shape;
     PuzzlePiece.correctPos :=
       Point.mk (INR c * pieceWidth L - tabSize L) (INR r * pieceHeight L - tabSize L);
     PuzzlePiece.currentPos := Point.mk 0 0;
     PuzzlePiece.imgUrl := toDataURL r c;
     PuzzlePiece.isLocked := false;
     PuzzlePiece.zIndex := 1 |}.

(** The body of the inner loop, lines 134-227.  [None] is the
    [TypeError] of reading a row or a shape that is not there. *)
Definition rasterCell (r c : nat) (st : RasterState) : option RasterState :=
  match g !! r with
  | None => None
  | Some line =>
      if negb (getContext r c) then Some st (* [if (!ctx) continue;] *)
      else match line !! c with
           | Some (Some shape) =>
               let pieces' := pieces st ++ [makePiece r c shape] in
               let loadedCount' := S (loadedCount st) in
               Some (mkRasterState pieces' loadedCount'
                       (resolved st
                        || (Z.of_nat loadedCount' =? rows L * cols L)%Z))
           | _ => None
           end
  end.

Definition rasterRow (r : nat) (st : RasterState) : option RasterState :=
  forLoop (rasterCell r) 0 (Z.to_nat (cols L)) st.

Definition rasterize : option RasterState :=
  forLoop rasterRow 0 (Z.to_nat (rows L)) (mkRasterState [] 0 false).
End Rasterizer.

Section GeneratePuzzle.
Variable TAB_SIZE_RATIO : R.
Variable random : nat -> R.
Variable getContext : nat -> nat -> bool.
Variable toDataURL : nat -> nat -> string.

(** The [img.onload] handler.  An exception thrown inside it is not
    caught, and then the promise is never settled: the [RangeError] of
    [Array(rows)], or of [Array(cols)] in the callback that runs once per
    row, and the [TypeError]s of the two loop nests. *)
Definition onload (imgW imgH : R) (gridSize : Z)
    (maxContainerWidth maxContainerHeight : R) : Outcome :=
  let L := layout TAB_SIZE_RATIO imgW imgH gridSize
                  maxContainerWidth maxContainerHeight in
  if validArrayLength (rows L)
     && ((rows L =? 0)%Z || validArrayLength (cols L))
  then
    match generateShapes random (Z.to_nat (rows L)) (Z.to_nat (cols L)) with
    | None => Pending
    | Some g =>
        match rasterize getContext toDataURL L g with
        | None => Pending
        | Some st =>
            if resolved st
            then Resolved (Result.mk (pieces st) (puzzleWidth L) (puzzleHeight L))
            else Pending
        end
    end
  else Pending.

(** [img] is [Some (width, height)] when the image loads and [None] when
    it fails to ([img.onerror = reject]). *)
Definition generatePuzzle (img : option (R * R)) (gridSize : Z)
    (maxContainerWidth maxContainerHeight : R) : Outcome :=
  match img with
  | Some (imgW, imgH) =>
      onload imgW imgH gridSize maxContainerWidth maxContainerHeight
  | None => Rejected
  end.
End GeneratePuzzle.

(** ** components/JigsawGame.tsx: the interaction layer *)

Module Game.
(** The component state the pointer handlers read and write.  A handler
    runs on the committed state and its updates are committed before the
    next event is handled. *)
Record State := mk {
  pieces : list PuzzlePiece.t;
  draggedPieceId : option nat;
  dragOffset : Point.t;
  completed : bool;
  timerActive : bool;
  startTime : option R
}.

Definition setPieces (f : list PuzzlePiece.t -> list PuzzlePiece.t) (s : State) : State :=
  mk (f (pieces s)) (draggedPieceId s) (dragOffset s)
     (completed s) (timerActive s) (startTime s).

Definition setDraggedPieceId (d : option nat) (s : State) : State :=
  mk (pieces s) d (dragOffset s) (completed s) (timerActive s) (startTime s).

Definition setDragOffset (o : Point.t) (s : State) : State :=
  mk (pieces s) (draggedPieceId s) o (completed s) (timerActive s) (startTime s).

(** The pointer events, with what the handlers read from the event and
    from the page: the pointer position, the origin of the board's
    bounding rectangle and the clock.  [boardRect] is [None] when the
    container or the board element is missing. *)
Inductive Event :=
| PointerDown (pieceId : nat) (clientX clientY boardLeft boardTop now : R)
| PointerMove (clientX clientY : R) (boardRect : option (R * R))
| PointerUp.
End Game.

Section JigsawGame.
Local Open Scope R_scope.
Import Game.

(** [constants.ts] is not part of the sources at hand. *)
Variable SNAP_TOLERANCE : R.

(** [pieces.find(p => p.id === pieceId)] *)
Definition findPiece (pieceId : nat) (ps : list PuzzlePiece.t) : option PuzzlePiece.t :=
  List.find (fun p => Nat.eqb (PuzzlePiece.id p) pieceId) ps.

(** The "check completion" effect, run after [pieces] has been set. *)
Definition checkCompletion (s : State) : State :=
  if (0 <? length (pieces s))%nat && forallb PuzzlePiece.isLocked (pieces s)
  then mk (pieces s) (draggedPieceId s) (dragOffset s) true false (startTime s)
  else s.

(** [Math.max(...pieces.map(p => p.zIndex), 1)] *)
Definition maxZ (ps : list PuzzlePiece.t) : Z :=
  fold_right Z.max 1%Z (map PuzzlePiece.zIndex ps).

(** Lines 105-108: the timer starts on the first interaction. *)
Definition startTimer (now : R) (s : State) : State :=
  if negb (timerActive s) && negb (completed s)
  then mk (pieces s) (draggedPieceId s) (dragOffset s) (completed s) true (Some now)
  else s.

Definition handlePointerDown (pieceId : nat)
    (clientX clientY boardLeft boardTop now : R) (s : State) : State :=
  let s1 := startTimer now s in
  match findPiece pieceId (pieces s) with
  | None => s1
  | Some piece =>
      if PuzzlePiece.isLocked piece then s1
      else
        let z := maxZ (pieces s) in
        let s2 := setPieces (map (fun p =>
                    if Nat.eqb (PuzzlePiece.id p) pieceId
                    then PuzzlePiece.with_zIndex (z + 1) p else p)) s1 in
        let s3 := setDraggedPieceId (Some pieceId) s2 in
        let offsetX := clientX - (boardLeft + Point.x (PuzzlePiece.currentPos piece)) in
        let offsetY := clientY - (boardTop + Point.y (PuzzlePiece.currentPos piece)) in
        checkCompletion (setDragOffset (Point.mk offsetX offsetY) s3)
  end.

Definition handlePointerMove (clientX clientY : R) (boardRect : option (R * R))
    (s : State) : State :=
  match draggedPieceId s, boardRect with
  | Some dragged, Some (boardLeft, boardTop) =>
      let newX := clientX - boardLeft - Point.x (dragOffset s) in
      let newY := clientY - boardTop - Point.y (dragOffset s) in
      checkCompletion
        (setPieces (map (fun p =>
           if negb (Nat.eqb (PuzzlePiece.id p) dragged) then p
           else PuzzlePiece.with_currentPos (Point.mk newX newY) p)) s)
  | _, _ => s
  end.

(** Lines 155-158. *)
Definition snapDistance (piece : PuzzlePiece.t) : R :=
  sqrt ((Point.x (PuzzlePiece.currentPos piece) - Point.x (PuzzlePiece.correctPos piece)) ^ 2
        + (Point.y (PuzzlePiece.currentPos piece) - Point.y (PuzzlePiece.correctPos piece)) ^ 2).

Definition handlePointerUp (s : State) : State :=
  match draggedPieceId s with
  | None => s
  | Some dragged =>
      let s1 :=
        match findPiece dragged (pieces s) with
        | Some piece =>
            if Rlt_dec (snapDistance piece) SNAP_TOLERANCE
            then checkCompletion
                   (setPieces (map (fun p =>
                      if negb (Nat.eqb (PuzzlePiece.id p) dragged) then p
                      else PuzzlePiece.snapped p)) s)
            else s
        | None => s
        end in
      setDraggedPieceId None s1
  end.

Definition handle (e : Event) (s : State) : State :=
  match e with
  | PointerDown pieceId clientX clientY boardLeft boardTop now =>
      handlePointerDown pieceId clientX clientY boardLeft boardTop now s
  | PointerMove clientX clientY boardRect =>
      handlePointerMove clientX clientY boardRect s
  | PointerUp => handlePointerUp s
  end.

(** A play: the events handled one after the other. *)
Definition play (es : list Event) (s : State) : State :=
  fold_left (fun st e => handle e st) es s.

(** Lines 54-60: the pieces are scattered; piece [i] takes the [2i]-th
    and [2i+1]-th value of the random source. *)
Definition scatter (random : nat -> R) (puzzleWidth puzzleHeight : R)
    (ps : list PuzzlePiece.t) : list PuzzlePiece.t :=
  imap (fun i p =>
    PuzzlePiece.with_currentPos
      (Point.mk
         (random (2 * i)%nat * (puzzleWidth - PuzzlePiece.width p) * (12 / 10)
          - puzzleWidth * (1 / 10))
         (random (2 * i + 1)%nat * (puzzleHeight - PuzzlePiece.height p) * (12 / 10)
          - puzzleHeight * (1 / 10)))
      p) ps.

(** [initGame], from the outcome of [generatePuzzle]: the new pieces are
    installed only when the promise resolves. *)
Definition initGame (random : nat -> R) (out : Outcome) (s : State) : State :=
  let s0 := mk (pieces s) (draggedPieceId s) (dragOffset s) false false None in
  match out with
  | Resolved res =>
      checkCompletion
        (setPieces (fun _ => scatter random (Result.puzzleWidth res)
                               (Result.puzzleHeight res) (Result.pieces res)) s0)
  | _ => s0
  end.
End JigsawGame.

(** ** The release of a piece, as the browser runs it

    The embedding above handles one event at a time on the committed
    state, over exact reals.  The two handlers that move and release a
    piece are embedded a second time, closer to the machine.  Positions are
    doubles.  A handler is a closure created by a render: what it reads
    ([pieces], [draggedPieceId], [dragOffset]) is the state of that render,
    [rendered] below, while a functional update [setPieces(prev => ...)]
    acts on the state at the time it is applied, [prev].  The two are the
    same state when the component has rendered since its last update. *)
Module Binary64Game.
Import PrimFloat.

Module Point.
Record t := mk { x : float; y : float }.
End Point.

Module PuzzlePiece.
Record t := mk {
  id : nat;
  row : nat;
  col : nat;
  correctPos : Point.t;
  currentPos : Point.t;
  shape : PieceShape.t;
  imgUrl : string;
  width : float;
  height : float;
  isLocked : bool;
  zIndex : Z
}.

(** [{ ...p, currentPos: pos }] *)
Definition with_currentPos (pos : Point.t) (p : t) : t :=
  mk (id p) (row p) (col p) (correctPos p) pos (shape p)
     (imgUrl p) (width p) (height p) (isLocked p) (zIndex p).

(** [{ ...p, currentPos: p.correctPos, isLocked: true, zIndex: 0 }] *)
Definition snapped (p : t) : t :=
  mk (id p) (row p) (col p) (correctPos p) (correctPos p) (shape p)
     (imgUrl p) (width p) (height p) true 0.
End PuzzlePiece.

(** The part of the component state that the two handlers read or
    write. *)
Record State := mk {
  pieces : list PuzzlePiece.t;
  draggedPieceId : option nat;
  dragOffset : Point.t
}.

Section Handlers.
(** [Math.pow] is left to the engine by the language ("an
    implementation-approximated value"); it is a parameter here.
    [Math.sqrt], [+] and [-] are the IEEE operations. *)
Variable Math_pow : float -> float -> float.

(** [constants.ts] is not part of the sources at hand. *)
Variable SNAP_TOLERANCE : float.

(** [pieces.find(p => p.id === pieceId)] *)
Definition findPiece (pieceId : nat) (ps : list PuzzlePiece.t) : option PuzzlePiece.t :=
  List.find (fun p => Nat.eqb (PuzzlePiece.id p) pieceId) ps.

(** Lines 130-146.  [boardRect] is [None] when the container or the board
    element is missing. *)
Definition handlePointerMove (clientX clientY : float) (boardRect : option (float * float))
    (rendered prev : State) : State :=
  match draggedPieceId rendered, boardRect with
  | Some dragged, Some (boardLeft, boardTop) =>
      let newX := (clientX - boardLeft - Point.x (dragOffset rendered))%float in
      let newY := (clientY - boardTop - Point.y (dragOffset rendered))%float in
      mk (map (fun p =>
                 if negb (Nat.eqb (PuzzlePiece.id p) dragged) then p
                 else PuzzlePiece.with_currentPos (Point.mk newX newY) p)
              (pieces prev))
         (draggedPieceId prev) (dragOffset prev)
  | _, _ => prev
  end.

(** Lines 155-158. *)
Definition snapDistance (piece : PuzzlePiece.t) : float :=
  sqrt (Math_pow (Point.x (PuzzlePiece.currentPos piece)
                  - Point.x (PuzzlePiece.correctPos piece)) 2
        + Math_pow (Point.y (PuzzlePiece.currentPos piece)
                    - Point.y (PuzzlePiece.correctPos piece)) 2)%float.

(** Lines 148-170: the piece is looked up in the pieces of the render and
    the snap is applied to the pieces at the time of the update. *)
Definition handlePointerUp (rendered prev : State) : State :=
  match draggedPieceId rendered with
  | None => prev
  | Some dragged =>
      let prev1 :=
        match findPiece dragged (pieces rendered) with
        | Some piece =>
            if (snapDistance piece <? SNAP_TOLERANCE)%float
            then mk (map (fun p =>
                            if negb (Nat.eqb (PuzzlePiece.id p) dragged) then p
                            else PuzzlePiece.snapped p)
                         (pieces prev))
                    (draggedPieceId prev) (dragOffset prev)
            else prev
        | None => prev
        end in
      mk (pieces prev1) None (dragOffset prev1)
  end.
End Handlers.

(** [Math.pow(v, 2)] as the engines compute it: fdlibm's [pow] returns
    [v * v] when the exponent is 2. *)
Definition square_pow (base exponent : float) : float := (base * base)%float.
End Binary64Game.

(** * Properties *)

(** ** Loops *)

(** The rule for [forLoop]: a property that holds on entry and that every
    iteration carries from its index to the next holds on exit, and the
    loop ends without an exception. *)
Lemma forLoop_rule {St : Type} (body : nat -> St -> option St)
    (P : nat -> St -> Prop) (n i : nat) (st : St) :
  P i st ->
  (forall j s, i <= j < i + n -> P j s ->
     exists s', body j s = Some s' /\ P (S j) s') ->
  exists st', forLoop body i n st = Some st' /\ P (i + n) st'.
Proof.
  revert i st. induction n as [|n IH]; intros i st Hi Hstep.
  - exists st. rewrite Nat.add_0_r. by split.
  - destruct (Hstep i st) as (s' & Hb & HP); [lia | done |].
    destruct (IH (S i) s' HP) as (st' & Hrun & Hend).
    { intros j s Hj. apply Hstep. lia. }
    exists st'. split.
    + simpl. by rewrite Hb.
    + by replace (i + S n) with (S i + n) by lia.
Qed.

(** ** The shape grid *)

(** Two cells differ: one of their coordinates does. *)
Ltac other_cell :=
  let H := fresh in intros H; inversion H; lia.

Section ShapeGridFacts.
Variable random : nat -> R.
Variables rows cols : nat.

(** The grid keeps the dimensions it was allocated with. *)
Definition gridDimsOK (g : Grid) : Prop :=
  length g = rows /\ forall r line, g !! r = Some line -> length line = cols.

Lemma emptyGrid_dims : gridDimsOK (emptyGrid rows cols).
Proof.
  split.
  - apply length_replicate.
  - intros r line [-> _]%lookup_replicate. apply length_replicate.
Qed.

Lemma setShape_spec g r c s :
  gridDimsOK g -> r < rows -> c < cols ->
  exists g', setShape g r c s = Some g'
    /\ gridDimsOK g'
    /\ getShape g' r c = Some s
    /\ forall r' c', (r', c') <> (r, c) -> getShape g' r' c' = getShape g r' c'.
Proof.
  intros [Hlen Hrow] Hr Hc.
  destruct (lookup_lt_is_Some_2 g r) as [line Hline]; [lia |].
  pose proof (Hrow r line Hline) as Hll.
  exists (<[r := <[c := Some s]> line]> g).
  unfold setShape. rewrite Hline. split; [done |]. split; [| split].
  - split; [by rewrite length_insert |].
    intros r' line'. destruct (decide (r = r')) as [<- | Hne].
    + rewrite list_lookup_insert_eq by lia. intros [= <-].
      by rewrite length_insert.
    + rewrite list_lookup_insert_ne by done. apply Hrow.
  - unfold getShape. rewrite list_lookup_insert_eq by lia.
    by rewrite list_lookup_insert_eq by lia.
  - intros r' c' Hne. unfold getShape.
    destruct (decide (r = r')) as [<- | Hr'].
    + rewrite list_lookup_insert_eq by lia. rewrite Hline.
      rewrite list_lookup_insert_ne; [done | congruence].
    + by rewrite list_lookup_insert_ne.
Qed.

Lemma updShape_spec g r c s f :
  gridDimsOK g -> r < rows -> c < cols -> getShape g r c = Some s ->
  exists g', updShape g r c f = Some g'
    /\ gridDimsOK g'
    /\ getShape g' r c = Some (f s)
    /\ forall r' c', (r', c') <> (r, c) -> getShape g' r' c' = getShape g r' c'.
Proof.
  intros Hg Hr Hc Hs. unfold updShape. rewrite Hs.
  by apply setShape_spec.
Qed.

(** What the loop body leaves in cell [(r, c)], given the cell above and
    the cell before it. *)
Definition assignedShape (g : Grid) (k r c : nat) : PieceShape.t :=
  let drawsRight := (Z.of_nat c <? Z.of_nat cols - 1)%Z in
  {| PieceShape.top :=
       if (0 <? r)%nat
       then match getShape g (r - 1) c with
            | Some above => - PieceShape.bottom above
            | None => 0
            end
       else 0;
     PieceShape.left :=
       if (0 <? c)%nat
       then match getShape g r (c - 1) with
            | Some before => - PieceShape.right before
            | None => 0
            end
       else 0;
     PieceShape.right := if drawsRight then randomEdge random k else 0;
     PieceShape.bottom :=
       if (Z.of_nat r <? Z.of_nat rows - 1)%Z
       then randomEdge random (if drawsRight then S k else k)
       else 0 |}%Z.

Lemma assignCell_spec g k r c :
  gridDimsOK g -> r < rows -> c < cols ->
  (0 < r -> is_Some (getShape g (r - 1) c)) ->
  (0 < c -> is_Some (getShape g r (c - 1))) ->
  exists g' k',
    assignCell random rows cols r c (mkShapeState g k) = Some (mkShapeState g' k')
    /\ gridDimsOK g'
    /\ getShape g' r c = Some (assignedShape g k r c)
    /\ forall r' c', (r', c') <> (r, c) -> getShape g' r' c' = getShape g r' c'.
Proof.
  intros Hg Hr Hc Habove Hbefore. unfold assignCell, assignedShape. simpl.
  destruct (setShape_spec g r c flatShape Hg Hr Hc) as (g0 & -> & Hg0 & Hat0 & Hfr0).
  simpl.
  (* top *)
  assert (exists g1, (if (0 <? r)%nat
                      then above ← getShape g0 (r - 1) c;
                           updShape g0 r c (PieceShape.set_top (- PieceShape.bottom above))
                      else Some g0) = Some g1
            /\ gridDimsOK g1
            /\ getShape g1 r c = Some (PieceShape.set_top
                  (if (0 <? r)%nat
                   then match getShape g (r - 1) c with
                        | Some above => - PieceShape.bottom above
                        | None => 0
                        end
                   else 0)%Z flatShape)
            /\ forall r' c', (r', c') <> (r, c) -> getShape g1 r' c' = getShape g r' c')
    as (g1 & -> & Hg1 & Hat1 & Hfr1).
  { destruct (0 <? r)%nat eqn:Er.
    - apply Nat.ltb_lt in Er. destruct (Habove Er) as [above Ha].
      rewrite Hfr0 by other_cell. rewrite Ha. simpl.
      destruct (updShape_spec g0 r c flatShape
                  (PieceShape.set_top (- PieceShape.bottom above)) Hg0 Hr Hc Hat0)
        as (g1 & -> & ? & ? & Hfr).
      exists g1. split_and!; try done.
      intros r' c' Hne. rewrite Hfr by done. by apply Hfr0.
    - exists g0. by split_and!. }
  simpl.
  (* left *)
  set (s1 := PieceShape.set_top _ flatShape) in Hat1.
  assert (exists g2, (if (0 <? c)%nat
                      then before ← getShape g1 r (c - 1);
                           updShape g1 r c (PieceShape.set_left (- PieceShape.right before))
                      else Some g1) = Some g2
            /\ gridDimsOK g2
            /\ getShape g2 r c = Some (PieceShape.set_left
                  (if (0 <? c)%nat
                   then match getShape g r (c - 1) with
                        | Some before => - PieceShape.right before
                        | None => 0
                        end
                   else 0)%Z s1)
            /\ forall r' c', (r', c') <> (r, c) -> getShape g2 r' c' = getShape g r' c')
    as (g2 & -> & Hg2 & Hat2 & Hfr2).
  { destruct (0 <? c)%nat eqn:Ec.
    - apply Nat.ltb_lt in Ec. destruct (Hbefore Ec) as [before Hb].
      rewrite Hfr1 by other_cell. rewrite Hb. simpl.
      destruct (updShape_spec g1 r c s1
                  (PieceShape.set_left (- PieceShape.right before)) Hg1 Hr Hc Hat1)
        as (g2 & -> & ? & ? & Hfr).
      exists g2. split_and!; try done.
      intros r' c' Hne. rewrite Hfr by done. by apply Hfr1.
    - exists g1. split_and!; try done. }
  simpl.
  set (s2 := PieceShape.set_left _ s1) in Hat2.
  (* right *)
  destruct (Z.of_nat c <? Z.of_nat cols - 1)%Z eqn:Ecr; simpl.
  - destruct (updShape_spec g2 r c s2
                (PieceShape.set_right (randomEdge random k)) Hg2 Hr Hc Hat2)
      as (g3 & -> & Hg3 & Hat3 & Hfr3).
    simpl.
    destruct (Z.of_nat r <? Z.of_nat rows - 1)%Z eqn:Erb; simpl.
    + destruct (updShape_spec g3 r c _
                  (PieceShape.set_bottom (randomEdge random (S k))) Hg3 Hr Hc Hat3)
        as (g4 & -> & Hg4 & Hat4 & Hfr4).
      simpl. exists g4, (S (S k)). split_and!; try done.
      intros r' c' Hne. rewrite Hfr4, Hfr3 by done. by apply Hfr2.
    + exists g3, (S k). split_and!; try done.
      intros r' c' Hne. rewrite Hfr3 by done. by apply Hfr2.
  - destruct (Z.of_nat r <? Z.of_nat rows - 1)%Z eqn:Erb; simpl.
    + destruct (updShape_spec g2 r c s2
                  (PieceShape.set_bottom (randomEdge random k)) Hg2 Hr Hc Hat2)
        as (g4 & -> & Hg4 & Hat4 & Hfr4).
      simpl. exists g4, (S k). split_and!; try done.
      intros r' c' Hne. rewrite Hfr4 by done. by apply Hfr2.
    + exists g2, k. split_and!; try done.
Qed.

Lemma randomEdge_tab_or_slot k :
  randomEdge random k = 1%Z \/ randomEdge random k = (-1)%Z.
Proof. unfold randomEdge. destruct (Rgt_dec _ _); auto. Qed.

(** Cell [(r, c)] is finished: its top and left edges mirror the cell
    above and the cell before it, or are flat on the border; its right
    and bottom edges are a tab or a slot, or flat on the border. *)
Definition edgesOK (g : Grid) (r c : nat) : Prop :=
  exists s, getShape g r c = Some s
    /\ (if (0 <? r)%nat
        then exists above, getShape g (r - 1) c = Some above
               /\ PieceShape.top s = (- PieceShape.bottom above)%Z
        else PieceShape.top s = 0%Z)
    /\ (if (0 <? c)%nat
        then exists before, getShape g r (c - 1) = Some before
               /\ PieceShape.left s = (- PieceShape.right before)%Z
        else PieceShape.left s = 0%Z)
    /\ (if (Z.of_nat c <? Z.of_nat cols - 1)%Z
        then PieceShape.right s = 1%Z \/ PieceShape.right s = (-1)%Z
        else PieceShape.right s = 0%Z)
    /\ (if (Z.of_nat r <? Z.of_nat rows - 1)%Z
        then PieceShape.bottom s = 1%Z \/ PieceShape.bottom s = (-1)%Z
        else PieceShape.bottom s = 0%Z).

(** Row-major order of the cells. *)
Definition earlier (r' c' r c : nat) : Prop := r' < r \/ (r' = r /\ c' < c).

(** The loop invariant when the loops stand at cell [(r, c)]. *)
Definition shapesInv (r c : nat) (st : ShapeState) : Prop :=
  gridDimsOK (shapes st)
  /\ forall r' c', r' < rows -> c' < cols -> earlier r' c' r c ->
       edgesOK (shapes st) r' c'.

Lemma edgesOK_frame g g' r c r' c' :
  (forall r0 c0, (r0, c0) <> (r, c) -> getShape g' r0 c0 = getShape g r0 c0) ->
  earlier r' c' r c -> edgesOK g r' c' -> edgesOK g' r' c'.
Proof.
  intros Hfr Hearlier (s & Hs & Htop & Hleft & Hright & Hbottom).
  unfold earlier in Hearlier.
  exists s. split_and!; try done.
  - rewrite Hfr by other_cell. done.
  - destruct (0 <? r')%nat eqn:E; [| done]. apply Nat.ltb_lt in E.
    destruct Htop as (above & Ha & Ht). exists above.
    split; [| done]. rewrite Hfr by other_cell. done.
  - destruct (0 <? c')%nat eqn:E; [| done]. apply Nat.ltb_lt in E.
    destruct Hleft as (before & Hb & Hl). exists before.
    split; [| done]. rewrite Hfr by other_cell. done.
Qed.

Lemma assignCell_inv r c st :
  r < rows -> c < cols -> shapesInv r c st ->
  exists st', assignCell random rows cols r c st = Some st' /\ shapesInv r (S c) st'.
Proof.
  intros Hr Hc [Hg Hdone]. destruct st as [g k]. simpl in *.
  assert (Habove : 0 < r -> is_Some (getShape g (r - 1) c)).
  { intros H0. destruct (Hdone (r - 1) c) as (a & Ha & _);
      [lia | lia | left; lia | by exists a]. }
  assert (Hbefore : 0 < c -> is_Some (getShape g r (c - 1))).
  { intros H0. destruct (Hdone r (c - 1)) as (b & Hb & _);
      [lia | lia | right; lia | by exists b]. }
  destruct (assignCell_spec g k r c Hg Hr Hc Habove Hbefore)
    as (g' & k' & -> & Hg' & Hat & Hfr).
  eexists. split; [done |]. split; [done |]. simpl.
  intros r' c' Hr' Hc' Hearlier.
  destruct (decide ((r', c') = (r, c))) as [[= -> ->] | Hne].
  - exists (assignedShape g k r c). split; [done |].
    unfold assignedShape. simpl. split_and!.
    + destruct (0 <? r)%nat eqn:E; [| done]. apply Nat.ltb_lt in E.
      destruct (Habove E) as [a Ha]. exists a. rewrite Hfr by other_cell.
      by rewrite Ha.
    + destruct (0 <? c)%nat eqn:E; [| done]. apply Nat.ltb_lt in E.
      destruct (Hbefore E) as [b Hb]. exists b. rewrite Hfr by other_cell.
      by rewrite Hb.
    + destruct (Z.of_nat c <? Z.of_nat cols - 1)%Z; [| done].
      apply randomEdge_tab_or_slot.
    + destruct (Z.of_nat r <? Z.of_nat rows - 1)%Z; [| done].
      apply randomEdge_tab_or_slot.
  - apply (edgesOK_frame g g' r c); [done | | ].
    + unfold earlier in *.
      assert (r' <> r \/ c' <> c) by (destruct (decide (r' = r)); [right; congruence | by left]).
      lia.
    + apply Hdone; [done | done |]. unfold earlier in *.
      assert (r' <> r \/ c' <> c) by (destruct (decide (r' = r)); [right; congruence | by left]).
      lia.
Qed.

Lemma assignRow_inv r st :
  r < rows -> shapesInv r 0 st ->
  exists st', assignRow random rows cols r st = Some st' /\ shapesInv (S r) 0 st'.
Proof.
  intros Hr Hinv. unfold assignRow.
  destruct (forLoop_rule (assignCell random rows cols r) (shapesInv r) cols 0 st Hinv)
    as (st' & Hrun & Hend).
  { intros c s Hc Hs. apply assignCell_inv; [done | lia | done]. }
  exists st'. split; [done |]. destruct Hend as [Hg Hdone]. split; [done |].
  intros r' c' Hr' Hc' Hearlier. apply Hdone; [done | done |].
  unfold earlier in *. simpl. lia.
Qed.

(** The shape loops end without an exception and leave every cell
    finished. *)
Lemma generateShapes_finished :
  exists g, generateShapes random rows cols = Some g
    /\ gridDimsOK g
    /\ forall r c, r < rows -> c < cols -> edgesOK g r c.
Proof.
  unfold generateShapes.
  destruct (forLoop_rule (assignRow random rows cols) (fun r => shapesInv r 0)
              rows 0 (mkShapeState (emptyGrid rows cols) 0))
    as (st' & -> & [Hg Hdone]).
  { split; [apply emptyGrid_dims |]. unfold earlier. intros; lia. }
  { intros r s Hr Hs. apply assignRow_inv; [lia | done]. }
  exists (shapes st'). split; [done |]. split; [done |].
  intros r c Hr Hc. apply Hdone; [done | done |]. unfold earlier. simpl. lia.
Qed.
End ShapeGridFacts.

(** A grid of one row and two columns when every random value is 0.7:
    the shared edge is a tab on the left piece and a slot on the right. *)
Example generateShapes_1x2 :
  generateShapes (fun _ => (7 / 10)%R) 1 2
  = Some [[Some (PieceShape.mk 0 1 0 0); Some (PieceShape.mk 0 0 0 (-1))]].
Proof.
  assert (Htab : forall k, randomEdge (fun _ => (7 / 10)%R) k = 1%Z).
  { intros k. unfold randomEdge. destruct (Rgt_dec _ _); [done | lra]. }
  unfold generateShapes, assignRow, assignCell. cbn -[randomEdge].
  rewrite !Htab. reflexivity.
Qed.

(** C1.  The shape assigner ends without an exception for every grid size
    and every sequence of random values, and in the grid it produces each
    cell [(r, c)] holds a shape such that: an edge on the border of the
    puzzle is [0]; an interior edge is [1] or [-1]; the right edge is the
    negation of the left edge of the cell to the right, and the bottom edge
    the negation of the top edge of the cell below. *)
Theorem shape_grid_edges_mate (random : nat -> R) (rows cols : nat) :
  exists g, generateShapes random rows cols = Some g /\
    forall r c, r < rows -> c < cols ->
      exists s, getShape g r c = Some s
        /\ (r = 0 -> PieceShape.top s = 0%Z)
        /\ (r = rows - 1 -> PieceShape.bottom s = 0%Z)
        /\ (c = 0 -> PieceShape.left s = 0%Z)
        /\ (c = cols - 1 -> PieceShape.right s = 0%Z)
        /\ (0 < r -> PieceShape.top s = 1%Z \/ PieceShape.top s = (-1)%Z)
        /\ (r < rows - 1 -> PieceShape.bottom s = 1%Z \/ PieceShape.bottom s = (-1)%Z)
        /\ (0 < c -> PieceShape.left s = 1%Z \/ PieceShape.left s = (-1)%Z)
        /\ (c < cols - 1 -> PieceShape.right s = 1%Z \/ PieceShape.right s = (-1)%Z)
        /\ (c < cols - 1 ->
             exists n, getShape g r (c + 1) = Some n
               /\ PieceShape.right s = (- PieceShape.left n)%Z)
        /\ (r < rows - 1 ->
             exists n, getShape g (r + 1) c = Some n
               /\ PieceShape.bottom s = (- PieceShape.top n)%Z).
Proof.
  destruct (generateShapes_finished random rows cols) as (g & Hgen & _ & Hall).
  exists g. split; [done |]. intros r c Hr Hc.
  destruct (Hall r c Hr Hc) as (s & Hs & Htop & Hleft & Hright & Hbottom).
  exists s. split; [done |].
  assert (Hz : forall a b, (Z.of_nat a <? Z.of_nat b - 1)%Z = true <-> a < b - 1).
  { intros a b. rewrite Z.ltb_lt. lia. }
  split_and!.
  - intros ->. done.
  - intros ->. destruct (Z.of_nat (rows - 1) <? Z.of_nat rows - 1)%Z eqn:E; [| done].
    apply Hz in E. lia.
  - intros ->. done.
  - intros ->. destruct (Z.of_nat (cols - 1) <? Z.of_nat cols - 1)%Z eqn:E; [| done].
    apply Hz in E. lia.
  - intros H0. apply Nat.ltb_lt in H0. rewrite H0 in Htop.
    destruct Htop as (above & Ha & ->).
    destruct (Hall (r - 1) c) as (a' & Ha' & _ & _ & _ & Hb); [lia | lia |].
    rewrite Ha in Ha'. injection Ha' as <-.
    destruct (Z.of_nat (r - 1) <? Z.of_nat rows - 1)%Z eqn:E.
    + lia.
    + apply not_true_iff_false in E. rewrite Hz in E. apply Nat.ltb_lt in H0. lia.
  - intros H0. apply Hz in H0. by rewrite H0 in Hbottom.
  - intros H0. apply Nat.ltb_lt in H0. rewrite H0 in Hleft.
    destruct Hleft as (before & Hb & ->).
    destruct (Hall r (c - 1)) as (b' & Hb' & _ & _ & Hrt & _); [lia | |].
    { apply Nat.ltb_lt in H0. lia. }
    rewrite Hb in Hb'. injection Hb' as <-.
    destruct (Z.of_nat (c - 1) <? Z.of_nat cols - 1)%Z eqn:E.
    + lia.
    + apply not_true_iff_false in E. rewrite Hz in E. apply Nat.ltb_lt in H0. lia.
  - intros H0. apply Hz in H0. by rewrite H0 in Hright.
  - intros H0.
    destruct (Hall r (c + 1)) as (n & Hn & _ & Hl & _); [lia | lia |].
    exists n. split; [done |].
    replace (0 <? c + 1)%nat with true in Hl by (symmetry; apply Nat.ltb_lt; lia).
    destruct Hl as (before & Hb & ->).
    replace (c + 1 - 1) with c in Hb by lia. rewrite Hs in Hb. injection Hb as <-. lia.
  - intros H0.
    destruct (Hall (r + 1) c) as (n & Hn & Ht & _); [lia | lia |].
    exists n. split; [done |].
    replace (0 <? r + 1)%nat with true in Ht by (symmetry; apply Nat.ltb_lt; lia).
    destruct Ht as (above & Ha & ->).
    replace (r + 1 - 1) with r in Ha by lia. rewrite Hs in Ha. injection Ha as <-. lia.
Qed.

(** ** The rasterizer loop *)

Section RasterFacts.
Variable getContext : nat -> nat -> bool.
Variable toDataURL : nat -> nat -> string.
Variable L : Layout.
Variable g : Grid.

Let nRows := Z.to_nat (rows L).
Let nCols := Z.to_nat (cols L).

Hypothesis rows_nonneg : (0 <= rows L)%Z.
Hypothesis cols_nonneg : (0 <= cols L)%Z.
Hypothesis grid_filled :
  forall r c, r < nRows -> c < nCols -> is_Some (getShape g r c).

(** A piece of the array was pushed for its own cell, from the shape of
    that cell, with a drawing context at hand. *)
Definition pushedForItsCell (p : PuzzlePiece.t) : Prop :=
  PuzzlePiece.row p < nRows /\ PuzzlePiece.col p < nCols
  /\ getContext (PuzzlePiece.row p) (PuzzlePiece.col p) = true
  /\ exists s, getShape g (PuzzlePiece.row p) (PuzzlePiece.col p) = Some s
       /\ p = makePiece toDataURL L (PuzzlePiece.row p) (PuzzlePiece.col p) s.

(** The invariant of the second loop nest when it stands at cell
    [(r, c)], that is after [r * nCols + c] cells. *)
Definition rasterInv (r c : nat) (st : RasterState) : Prop :=
  loadedCount st = length (pieces st)
  /\ length (pieces st) <= r * nCols + c
  /\ (resolved st = true <->
      0 < length (pieces st) /\ length (pieces st) = nRows * nCols)
  /\ (forall i p, pieces st !! i = Some p ->
        i <= PuzzlePiece.id p
        /\ PuzzlePiece.id p + (length (pieces st) - i) <= r * nCols + c
        /\ pushedForItsCell p)
  /\ (forall r0 c0, r0 < nRows -> c0 < nCols -> getContext r0 c0 = false ->
        earlier r0 c0 r c -> length (pieces st) < r * nCols + c)
  /\ ((forall r0 c0, r0 < nRows -> c0 < nCols -> getContext r0 c0 = true) ->
      length (pieces st) = r * nCols + c).

Lemma total_pieces : (rows L * cols L)%Z = Z.of_nat (nRows * nCols).
Proof. unfold nRows, nCols. lia. Qed.

Lemma rasterCell_inv r c st :
  r < nRows -> c < nCols -> rasterInv r c st ->
  exists st', rasterCell getContext toDataURL L g r c st = Some st'
              /\ rasterInv r (S c) st'.
Proof.
  intros Hr Hc (Hcount & Hlen & Hres & Hpieces & Hfail & Hfull).
  assert (Hcells : r * nCols + c < nRows * nCols) by nia.
  destruct (grid_filled r c Hr Hc) as [s Hs].
  unfold rasterCell. unfold getShape in Hs.
  destruct (g !! r) as [line |] eqn:Hline; [| done].
  destruct (getContext r c) eqn:Hctx; cbn [negb].
  - destruct (line !! c) as [[s' |] |] eqn:Hcell; try done.
    injection Hs as ->.
    eexists. split; [done |]. unfold rasterInv.
    cbn [pieces loadedCount resolved]. rewrite length_app.
    cbn [length]. split_and!.
    + lia.
    + lia.
    + rewrite total_pieces. split.
      * intros [Hold | Hnew]%orb_true_iff.
        -- apply Hres in Hold. lia.
        -- apply Z.eqb_eq in Hnew. lia.
      * intros [_ Hnew]. apply orb_true_iff. right. apply Z.eqb_eq. lia.
    + intros i p [[Hi Hp] | [-> <-]]%lookup_snoc_Some.
      * destruct (Hpieces i p Hp) as (? & ? & ?). split_and!; [done | lia | done].
      * simpl. split_and!; [fold nCols; lia | fold nCols; lia |].
        unfold pushedForItsCell. simpl. split_and!; try done.
        exists s. unfold getShape. by rewrite Hline, Hcell.
    + intros r0 c0 Hr0 Hc0 Hno Hearlier.
      destruct (decide ((r0, c0) = (r, c))) as [[= -> ->] | Hne]; [congruence |].
      assert (earlier r0 c0 r c).
      { unfold earlier in *.
        assert (r0 <> r \/ c0 <> c)
          by (destruct (decide (r0 = r)); [right; congruence | by left]).
        lia. }
      specialize (Hfail r0 c0 Hr0 Hc0 Hno H). lia.
    + intros Hall. specialize (Hfull Hall). lia.
  - exists st. split; [done |]. unfold rasterInv. split_and!.
    + done.
    + lia.
    + done.
    + intros i p Hp. destruct (Hpieces i p Hp) as (? & ? & ?).
      split_and!; [done | lia | done].
    + intros. lia.
    + intros Hall. rewrite Hall in Hctx by done. done.
Qed.

Lemma rasterRow_inv r st :
  r < nRows -> rasterInv r 0 st ->
  exists st', rasterRow getContext toDataURL L g r st = Some st'
              /\ rasterInv (S r) 0 st'.
Proof.
  intros Hr Hinv. unfold rasterRow. fold nCols.
  destruct (forLoop_rule (rasterCell getContext toDataURL L g r) (rasterInv r)
              nCols 0 st Hinv) as (st' & Hrun & Hend).
  { intros c s Hc Hs. apply rasterCell_inv; [done | lia | done]. }
  exists st'. split; [done |].
  destruct Hend as (Hcount & Hlen & Hres & Hpieces & Hfail & Hfull).
  simpl in *. unfold rasterInv. split_and!.
  - done.
  - lia.
  - done.
  - intros i p Hp. destruct (Hpieces i p Hp) as (? & ? & ?).
    split_and!; [done | lia | done].
  - intros r0 c0 Hr0 Hc0 Hno Hearlier.
    assert (length (pieces st') < r * nCols + nCols); [| lia].
    apply (Hfail r0 c0); try done. unfold earlier in *. lia.
  - intros Hall. specialize (Hfull Hall). lia.
Qed.

(** The loops end without an exception, in a state where the invariant
    holds for all [nRows * nCols] cells. *)
Lemma rasterize_inv :
  exists st, rasterize getContext toDataURL L g = Some st
             /\ rasterInv nRows 0 st.
Proof.
  unfold rasterize. fold nRows.
  destruct (forLoop_rule (rasterRow getContext toDataURL L g)
              (fun r => rasterInv r 0) nRows 0 (mkRasterState [] 0 false))
    as (st & Hrun & Hend).
  { unfold rasterInv, earlier. cbn [pieces loadedCount resolved length].
    split_and!.
    - done.
    - lia.
    - split; [done | lia].
    - intros i p. by rewrite lookup_nil.
    - intros; lia.
    - done. }
  { intros r s Hr Hs. apply rasterRow_inv; [lia | done]. }
  by exists st.
Qed.

(** One missing context keeps [loadedCount] below [totalPieces] for
    good: [resolve] is never called. *)
Lemma rasterize_missing_context r0 c0 st :
  r0 < nRows -> c0 < nCols -> getContext r0 c0 = false ->
  rasterize getContext toDataURL L g = Some st -> resolved st = false.
Proof.
  intros Hr0 Hc0 Hno Hrun.
  destruct rasterize_inv as (st' & Hrun' & _ & _ & Hres & _ & Hfail & _).
  rewrite Hrun in Hrun'. injection Hrun' as <-.
  apply not_true_iff_false. intros Hyes. apply Hres in Hyes.
  specialize (Hfail r0 c0 Hr0 Hc0 Hno). unfold earlier in Hfail. lia.
Qed.

(** When [resolve] has been called, the array holds one piece for every
    cell, in row-major order. *)
Lemma rasterize_resolved st :
  rasterize getContext toDataURL L g = Some st -> resolved st = true ->
  0 < length (pieces st)
  /\ length (pieces st) = nRows * nCols
  /\ (forall i p, pieces st !! i = Some p ->
        PuzzlePiece.id p = i /\ pushedForItsCell p).
Proof.
  intros Hrun Hyes.
  destruct rasterize_inv as (st' & Hrun' & _ & _ & Hres & Hpieces & _ & _).
  rewrite Hrun in Hrun'. injection Hrun' as <-.
  apply Hres in Hyes. destruct Hyes as [Hsome Hall].
  split; [done |]. split; [done |].
  intros i p Hp. pose proof (lookup_lt_Some _ _ _ Hp).
  destruct (Hpieces i p Hp) as (? & ? & ?). split; [lia | done].
Qed.

(** With a context for every canvas, [resolve] is called. *)
Lemma rasterize_all_contexts :
  0 < nRows -> 0 < nCols ->
  (forall r c, r < nRows -> c < nCols -> getContext r c = true) ->
  exists st, rasterize getContext toDataURL L g = Some st /\ resolved st = true.
Proof.
  intros Hr Hc Hall.
  destruct rasterize_inv as (st & Hrun & _ & _ & Hres & _ & _ & Hfull).
  exists st. split; [done |]. apply Hres. specialize (Hfull Hall). nia.
Qed.
End RasterFacts.

(** ** The layout planner *)

Section LayoutFacts.
Local Open Scope R_scope.


Lemma Math_round_IZR z : Math_round (IZR z) = z.
Proof.
  unfold Math_round. symmetry. apply Int_part_spec. lra.
Qed.


Variable TAB_SIZE_RATIO : R.
Variables imgW imgH : R.
Variable gridSize : Z.
Variables maxContainerWidth maxContainerHeight : R.

Hypothesis imgW_pos : 0 < imgW.
Hypothesis imgH_pos : 0 < imgH.

Lemma imageAspect_pos : 0 < imageAspect imgW imgH.
Proof. unfold imageAspect. by apply Rdiv_lt_0_compat. Qed.

Lemma imageAspect_times : imageAspect imgW imgH * imgH = imgW.
Proof. unfold imageAspect. field. lra. Qed.


Hypothesis maxW_pos : 0 < maxContainerWidth.
Hypothesis maxH_pos : 0 < maxContainerHeight.

Lemma containerAspect_times :
  containerAspect maxContainerWidth maxContainerHeight * maxContainerHeight
  = maxContainerWidth.
Proof. unfold containerAspect. field. lra. Qed.

(** The aspect fit in exact arithmetic. *)
Lemma puzzleSize_fits :
  let size := puzzleSize imgW imgH maxContainerWidth maxContainerHeight in
  fst size <= maxContainerWidth
  /\ snd size <= maxContainerHeight
  /\ (fst size = maxContainerWidth \/ snd size = maxContainerHeight)
  /\ fst size / snd size = imgW / imgH.
Proof.
  unfold puzzleSize.
  pose proof imageAspect_pos as Ha.
  pose proof imageAspect_times as Hi.
  pose proof containerAspect_times as Hc.
  fold (imageAspect imgW imgH).
  set (a := imageAspect imgW imgH) in *.
  set (k := containerAspect maxContainerWidth maxContainerHeight) in *.
  destruct (Rgt_dec a k) as [Hwide | Hhigh]; simpl.
  - assert (Hh : maxContainerWidth / a * a = maxContainerWidth) by (field; lra).
    split_and!.
    + lra.
    + nra.
    + by left.
    + field. split; [lra |]. nra.
  - apply Rnot_gt_le in Hhigh. split_and!.
    + nra.
    + lra.
    + by right.
    + field. lra.
Qed.
End LayoutFacts.

(** Two layouts used as examples below: an 800 x 400 image with grid size
    5 in bounds 500 x 500, and a 300 x 300 image with grid size 3 in
    bounds 300 x 300. *)
Lemma gridDims_landscape : gridDims 800 400 5 = (5%Z, 10%Z).
Proof.
  unfold gridDims, imageAspect. destruct (Rge_dec _ _) as [_ | Hn]; [| lra].
  f_equal. replace (5 * (800 / 400))%R with (IZR 10) by lra.
  apply Math_round_IZR.
Qed.

Lemma gridDims_square : gridDims 300 300 3 = (3%Z, 3%Z).
Proof.
  unfold gridDims, imageAspect. destruct (Rge_dec _ _) as [_ | Hn]; [| lra].
  f_equal. replace (3 * (300 / 300))%R with (IZR 3) by lra.
  apply Math_round_IZR.
Qed.

(** *** The layout planner on doubles *)

Section Binary64Facts.
Import PrimFloat.
Local Open Scope Z_scope.

(** [r] is the integer nearest to the value of the double [v], the larger
    one on a tie: [r - 1/2 <= v < r + 1/2]. *)
Definition nearestInteger (r : Z) (v : float) : Prop :=
  exists n d, Binary64.exact v = Some (n, d)
    /\ 0 < d /\ (2 * r - 1) * d <= 2 * n < (2 * r + 1) * d.

(** The integer [r] as [Math.round] returns it for an argument of the
    given sign. *)
Definition roundedTo (r : Z) (negative : bool) : float :=
  if (r =? 0) && negative then (-0)%float else Binary64.ofZ r.

Lemma exact_denominator v n d : Binary64.exact v = Some (n, d) -> 0 < d.
Proof.
  unfold Binary64.exact. destruct (FloatOps.Prim2SF v) as [s | s | | s m e]; try done.
  - by intros [= _ <-].
  - cbv zeta. destruct (0 <=? e) eqn:He.
    + by intros [= _ <-].
    + intros [= _ <-]. apply Z.leb_gt in He. apply Z.pow_pos_nonneg; lia.
Qed.

(** Every finite double has a nearest integer, and at most one. *)
Lemma nearestInteger_exists v n d :
  Binary64.exact v = Some (n, d) -> nearestInteger ((2 * n + d) / (2 * d)) v.
Proof.
  intros Hv. pose proof (exact_denominator v n d Hv) as Hd.
  exists n, d. split; [done |]. split; [done |].
  pose proof (Z.div_mod (2 * n + d) (2 * d) ltac:(lia)) as Hdiv.
  pose proof (Z.mod_pos_bound (2 * n + d) (2 * d) ltac:(lia)) as Hmod.
  nia.
Qed.

Lemma nearestInteger_unique r r' v :
  nearestInteger r v -> nearestInteger r' v -> r = r'.
Proof.
  intros (n & d & Hv & Hd & Hr) (n' & d' & Hv' & _ & Hr').
  rewrite Hv in Hv'. injection Hv' as <- <-. nia.
Qed.

(** [Math.round] returns the nearest integer, a tie going up. *)
Lemma Math_round_nearest v r :
  nearestInteger r v -> Binary64.Math_round v = roundedTo r (get_sign v).
Proof.
  intros Hr. pose proof Hr as (n & d & Hv & _).
  unfold Binary64.Math_round. rewrite Hv. cbv zeta.
  by rewrite (nearestInteger_unique _ _ _ (nearestInteger_exists v n d Hv) Hr).
Qed.

(** [w] is [v] rounded: the integer nearest to a finite [v], a tie going
    up, and [v] itself when it is NaN or infinite. *)
Definition roundOf (v w : float) : Prop :=
  match Binary64.exact v with
  | Some _ => exists r, nearestInteger r v /\ w = roundedTo r (get_sign v)
  | None => w = v
  end.

Lemma Math_round_roundOf v : roundOf v (Binary64.Math_round v).
Proof.
  unfold roundOf. destruct (Binary64.exact v) as [[n d] |] eqn:Hv.
  - exists ((2 * n + d) / (2 * d)). split; [by apply nearestInteger_exists |].
    by apply Math_round_nearest, nearestInteger_exists.
  - unfold Binary64.Math_round. by rewrite Hv.
Qed.

(** The grid at a tie.  For a 1000 x 1300 image and grid size 5 the product
    [5 * (1 / (1000 / 1300))] is the double 6.499999999999999, so there
    are 6 rows, where exact arithmetic has 6.5 and 7 rows; for a
    1200 x 800 image the product is the double 7.5 and rounds up to 8
    columns. *)
Example gridDims_below_tie : Binary64.gridDims 1000 1300 5 = (6, 5)%float.
Proof. vm_compute. reflexivity. Qed.

Example gridDims_exact_tie : gridDims 1000 1300 5 = (7, 5).
Proof.
  unfold gridDims, imageAspect. destruct (Rge_dec _ _) as [Hn | _]; [lra |].
  f_equal. unfold Math_round. symmetry. apply Int_part_spec. simpl. lra.
Qed.

Example gridDims_at_tie :
  Binary64.gridDims 1200 800 5 = (5, 8)%float
  /\ nearestInteger 8 (5 * (1200 / 800))%float
  /\ Binary64.exact (5 * (1200 / 800))%float = Some (15 * 2 ^ 49, 2 ^ 50).
Proof.
  split; [vm_compute; reflexivity |].
  assert (Hv : Binary64.exact (5 * (1200 / 800))%float = Some (15 * 2 ^ 49, 2 ^ 50))
    by (vm_compute; reflexivity).
  split; [| exact Hv].
  exists (15 * 2 ^ 49), (2 ^ 50). split; [exact Hv |]. lia.
Qed.

(** C6.  The grid of the layout planner, on the doubles of the code:
    [rows = gridSize] and [cols = round(gridSize * imageAspect)] when
    [imageAspect >= 1], [cols = gridSize] and
    [rows = round(gridSize * (1 / imageAspect))] otherwise, where
    [imageAspect], the products and the quotients are the doubles the
    code computes and [round] is [Math.round], which takes a finite double
    to the integer nearest to it, a tie going up ([roundOf]);
    [pieceWidth = puzzleWidth / cols] and
    [pieceHeight = puzzleHeight / rows]; and for an 800 x 400 image, grid
    size 5 and bounds 500 x 500 the puzzle is 500 x 250 with 5 rows and 10
    columns, 50 cells, of 50 x 50 each. *)
Theorem layout_grid_sizing (TAB_SIZE_RATIO imgW imgH gridSize
                            maxContainerWidth maxContainerHeight : float) :
  let L := Binary64.layout TAB_SIZE_RATIO imgW imgH gridSize
                           maxContainerWidth maxContainerHeight in
  let S := Binary64.layout TAB_SIZE_RATIO 800 400 5 500 500 in
  let imageAspect := (imgW / imgH)%float in
  ((1 <=? imageAspect)%float = true ->
     Binary64.rows L = gridSize
     /\ Binary64.cols L = Binary64.Math_round (gridSize * imageAspect)%float
     /\ roundOf (gridSize * imageAspect)%float (Binary64.cols L))
  /\ ((1 <=? imageAspect)%float = false ->
     Binary64.cols L = gridSize
     /\ Binary64.rows L = Binary64.Math_round (gridSize * (1 / imageAspect))%float
     /\ roundOf (gridSize * (1 / imageAspect))%float (Binary64.rows L))
  /\ Binary64.pieceWidth L = (Binary64.puzzleWidth L / Binary64.cols L)%float
  /\ Binary64.pieceHeight L = (Binary64.puzzleHeight L / Binary64.rows L)%float
  /\ Binary64.puzzleWidth S = 500%float /\ Binary64.puzzleHeight S = 250%float
  /\ Binary64.rows S = 5%float /\ Binary64.cols S = 10%float
  /\ (Binary64.rows S * Binary64.cols S)%float = 50%float
  /\ Binary64.pieceWidth S = 50%float /\ Binary64.pieceHeight S = 50%float.
Proof.
  unfold Binary64.layout.
  cbn [Binary64.rows Binary64.cols Binary64.pieceWidth Binary64.pieceHeight
       Binary64.puzzleWidth Binary64.puzzleHeight].
  split_and!; try done; try (vm_compute; reflexivity).
  - intros Hwide. unfold Binary64.gridDims. cbv zeta. rewrite Hwide. cbn [fst snd].
    split_and!; [done | done | apply Math_round_roundOf].
  - intros Hhigh. unfold Binary64.gridDims. cbv zeta. rewrite Hhigh. cbn [fst snd].
    split_and!; [done | done | apply Math_round_roundOf].
Qed.

(** The claim of C5 on doubles: both dimensions within their bounds. *)
Definition withinBounds (w h maxW maxH : float) : bool :=
  (fst (Binary64.puzzleSize w h maxW maxH) <=? maxW)%float
  && (snd (Binary64.puzzleSize w h maxW maxH) <=? maxH)%float.

(** C5 fails on the doubles of the code.  An 800 x 1328 image in a
    container of 448 x 712, whose bounds are 400 x 664: the aspects are
    equal, so the test [imageAspect > containerAspect] fails, and
    [maxContainerHeight * imageAspect] is the double
    400.00000000000006, above the width bound of 400.  Over exact reals
    the fit holds ([puzzleSize_fits]); the excess is the rounding of the
    quotient [800 / 1328], which the product does not undo. *)
Theorem aspect_fit_binary64_overshoots :
  Binary64.puzzleSize 800 1328 400 664 = (0x1.9000000000001p+8, 664)%float
  /\ (400 <? fst (Binary64.puzzleSize 800 1328 400 664))%float = true
  /\ Binary64.exact (fst (Binary64.puzzleSize 800 1328 400 664))
     = Some (400 * 2 ^ 44 + 1, 2 ^ 44)
  /\ withinBounds 800 1328 400 664 = false.
Proof. split_and!; vm_compute; reflexivity. Qed.
End Binary64Facts.

(** ** [generatePuzzle] *)

Section GeneratePuzzleFacts.
Variable TAB_SIZE_RATIO : R.
Variable random : nat -> R.
Variable getContext : nat -> nat -> bool.
Variable toDataURL : nat -> nat -> string.
Variables imgW imgH : R.
Variable gridSize : Z.
Variables maxContainerWidth maxContainerHeight : R.

Let L := layout TAB_SIZE_RATIO imgW imgH gridSize
                maxContainerWidth maxContainerHeight.
Let nRows := Z.to_nat (rows L).
Let nCols := Z.to_nat (cols L).

(** The shape grid that the handler builds has a shape in every cell. *)
Lemma onload_shapes :
  exists g, generateShapes random nRows nCols = Some g
    /\ forall r c, r < nRows -> c < nCols -> is_Some (getShape g r c).
Proof.
  destruct (generateShapes_finished random nRows nCols) as (g & Hg & _ & Hall).
  exists g. split; [done |]. intros r c Hr Hc.
  destruct (Hall r c Hr Hc) as (s & Hs & _). by exists s.
Qed.

(** What a resolved promise tells about the run of the handler. *)
Lemma onload_resolved res :
  onload TAB_SIZE_RATIO random getContext toDataURL imgW imgH gridSize
         maxContainerWidth maxContainerHeight = Resolved res ->
  (0 < rows L)%Z /\ (0 <= cols L)%Z
  /\ exists g st,
       generateShapes random nRows nCols = Some g
       /\ (forall r c, r < nRows -> c < nCols -> is_Some (getShape g r c))
       /\ rasterize getContext toDataURL L g = Some st
       /\ resolved st = true
       /\ res = Result.mk (pieces st) (puzzleWidth L) (puzzleHeight L).
Proof.
  unfold onload. fold L nRows nCols.
  destruct onload_shapes as (g & Hg & Hfilled). rewrite Hg.
  destruct (validArrayLength (rows L)) eqn:Hrows; [| done].
  unfold validArrayLength in Hrows.
  apply andb_true_iff in Hrows as [Hr0%Z.leb_le _].
  destruct (rows L =? 0)%Z eqn:Hzero; cbn [andb orb].
  - apply Z.eqb_eq in Hzero. unfold rasterize. rewrite Hzero. done.
  - apply Z.eqb_neq in Hzero.
    destruct (validArrayLength (cols L)) eqn:Hcols; [| done].
    unfold validArrayLength in Hcols.
    apply andb_true_iff in Hcols as [Hc0%Z.leb_le _].
    destruct (rasterize getContext toDataURL L g) as [st |] eqn:Hrun; [| done].
    destruct (resolved st) eqn:Hres; [| done].
    intros [= <-]. split; [lia |]. split; [done |].
    by exists g, st.
Qed.

(** With a context for every canvas and grid dimensions that are array
    lengths, the promise resolves. *)
Lemma onload_resolves :
  (0 < rows L < 2 ^ 32)%Z -> (0 < cols L < 2 ^ 32)%Z ->
  (forall r c, r < nRows -> c < nCols -> getContext r c = true) ->
  exists res,
    onload TAB_SIZE_RATIO random getContext toDataURL imgW imgH gridSize
           maxContainerWidth maxContainerHeight = Resolved res.
Proof.
  intros Hrows Hcols Hctx. unfold onload. fold L nRows nCols.
  destruct onload_shapes as (g & Hg & Hfilled). rewrite Hg.
  assert (validArrayLength (rows L) = true) as ->.
  { unfold validArrayLength. apply andb_true_iff. split; [apply Z.leb_le | apply Z.ltb_lt]; lia. }
  assert (validArrayLength (cols L) = true) as ->.
  { unfold validArrayLength. apply andb_true_iff. split; [apply Z.leb_le | apply Z.ltb_lt]; lia. }
  rewrite orb_true_r. cbn [andb].
  destruct (rasterize_all_contexts getContext toDataURL L g) as (st & -> & ->);
    [lia | lia | done | unfold nRows; lia | unfold nCols; lia | done |].
  by eexists.
Qed.

(** A resolved result holds at least one piece. *)
Lemma onload_resolved_nonempty res :
  onload TAB_SIZE_RATIO random getContext toDataURL imgW imgH gridSize
         maxContainerWidth maxContainerHeight = Resolved res ->
  exists p, In p (Result.pieces res).
Proof.
  intros (Hrows & Hcols & g & st & Hg & Hfilled & Hrun & Hres & ->)%onload_resolved.
  destruct (rasterize_resolved getContext toDataURL L g ltac:(lia) Hcols Hfilled
              st Hrun Hres) as (Hsome & _).
  cbn [Result.pieces]. destruct (pieces st) as [| p ps]; [simpl in Hsome; lia |].
  exists p. by left.
Qed.
End GeneratePuzzleFacts.

(** C3, as the code has it.  When the canvas of some cell [(r, c)] yields
    no drawing context, no piece of the array belongs to that cell, and
    [resolve] is never called: the promise stays pending. *)
Theorem missing_context_never_resolves (TAB_SIZE_RATIO : R) (random : nat -> R)
    (getContext : nat -> nat -> bool) (toDataURL : nat -> nat -> string)
    (imgW imgH : R) (gridSize : Z) (maxContainerWidth maxContainerHeight : R)
    (r c : nat) :
  let L := layout TAB_SIZE_RATIO imgW imgH gridSize
                  maxContainerWidth maxContainerHeight in
  (Z.of_nat r < rows L)%Z -> (Z.of_nat c < cols L)%Z ->
  getContext r c = false ->
  generatePuzzle TAB_SIZE_RATIO random getContext toDataURL (Some (imgW, imgH))
                 gridSize maxContainerWidth maxContainerHeight = Pending
  /\ forall g st p,
       generateShapes random (Z.to_nat (rows L)) (Z.to_nat (cols L)) = Some g ->
       rasterize getContext toDataURL L g = Some st ->
       In p (pieces st) ->
       (PuzzlePiece.row p, PuzzlePiece.col p) <> (r, c).
Proof.
  intros L Hr Hc Hno.
  destruct (onload_shapes TAB_SIZE_RATIO random imgW imgH gridSize
              maxContainerWidth maxContainerHeight) as (g & Hg & Hfilled).
  fold L in Hg, Hfilled. split.
  - unfold generatePuzzle, onload. fold L. rewrite Hg.
    destruct (validArrayLength (rows L) && _); [| done].
    destruct (rasterize getContext toDataURL L g) as [st |] eqn:Hrun; [| done].
    rewrite (rasterize_missing_context getContext toDataURL L g
               ltac:(lia) ltac:(lia) Hfilled r c st); try done; lia.
  - intros g' st p Hg' Hrun [i Hp]%list_elem_of_In%list_elem_of_lookup.
    rewrite Hg in Hg'. injection Hg' as <-.
    destruct (rasterize_inv getContext toDataURL L g ltac:(lia) ltac:(lia) Hfilled)
      as (st' & Hrun' & _ & _ & _ & Hpieces & _).
    rewrite Hrun in Hrun'. injection Hrun' as <-.
    destruct (Hpieces i p Hp) as (_ & _ & _ & _ & Hctx & _).
    intros [= Hrow Hcol]. rewrite Hrow, Hcol in Hctx. congruence.
Qed.

Lemma missing_context_never_resolves_example :
  generatePuzzle (2 / 10) (fun _ => 0%R)
    (fun r c => negb ((r =? 0)%nat && (c =? 0)%nat)) (fun _ _ => "data:,"%string)
    (Some (300, 300)%R) 3 300 300 = Pending.
Proof.
  apply (missing_context_never_resolves (2 / 10) (fun _ => 0%R)
           (fun r c => negb ((r =? 0)%nat && (c =? 0)%nat))
           (fun _ _ => "data:,"%string) 300 300 3 300 300 0 0).
  - unfold layout. cbn [rows]. rewrite gridDims_square. reflexivity.
  - unfold layout. cbn [cols]. rewrite gridDims_square. reflexivity.
  - reflexivity.
Defined.

(** C4.  When the promise resolves, the array of the result has
    [rows * cols] pieces, and the piece at index [r * cols + c] is the one
    of cell [(r, c)]: no cell is missing and none occurs twice. *)
Theorem resolved_has_every_piece (TAB_SIZE_RATIO : R) (random : nat -> R)
    (getContext : nat -> nat -> bool) (toDataURL : nat -> nat -> string)
    (img : option (R * R)) (gridSize : Z)
    (maxContainerWidth maxContainerHeight : R) (res : Result.t) :
  generatePuzzle TAB_SIZE_RATIO random getContext toDataURL img gridSize
                 maxContainerWidth maxContainerHeight = Resolved res ->
  exists imgW imgH, img = Some (imgW, imgH) /\
    let L := layout TAB_SIZE_RATIO imgW imgH gridSize
                    maxContainerWidth maxContainerHeight in
    Z.of_nat (length (Result.pieces res)) = (rows L * cols L)%Z
    /\ forall r c, (Z.of_nat r < rows L)%Z -> (Z.of_nat c < cols L)%Z ->
         exists p, Result.pieces res !! (r * Z.to_nat (cols L) + c) = Some p
           /\ PuzzlePiece.row p = r /\ PuzzlePiece.col p = c.
Proof.
  destruct img as [[imgW imgH] |]; [| done]. cbn [generatePuzzle].
  intros (Hrows & Hcols & g & st & Hg & Hfilled & Hrun & Hres & ->)%onload_resolved.
  exists imgW, imgH. split; [done |].
  set (L := layout TAB_SIZE_RATIO imgW imgH gridSize
                   maxContainerWidth maxContainerHeight) in *.
  destruct (rasterize_resolved getContext toDataURL L g ltac:(lia) Hcols Hfilled
              st Hrun Hres) as (_ & Hlen & Hpieces).
  cbn [Result.pieces]. split; [lia |].
  intros r c Hr Hc.
  set (nCols := Z.to_nat (cols L)) in *.
  assert (Hin : r * nCols + c < length (pieces st)) by (rewrite Hlen; nia).
  destruct (lookup_lt_is_Some_2 _ _ Hin) as [p Hp]. exists p. split; [done |].
  destruct (Hpieces _ p Hp) as (Hid & _ & Hcol & _ & s & _ & Heq).
  apply (f_equal PuzzlePiece.id) in Heq. cbn [makePiece PuzzlePiece.id] in Heq.
  fold L nCols in Heq. rewrite Hid in Heq.
  destruct (Nat.div_mod_unique nCols r (PuzzlePiece.row p) c (PuzzlePiece.col p));
    [lia | done | lia | done].
Qed.

Lemma resolved_has_every_piece_example :
  exists res,
    generatePuzzle (2 / 10) (fun _ => 0%R) (fun _ _ => true)
      (fun _ _ => "data:,"%string) (Some (800, 400)%R) 5 500 500 = Resolved res
    /\ length (Result.pieces res) = 50.
Proof.
  assert (Hrows : rows (layout (2 / 10) 800 400 5 500 500) = 5%Z).
  { unfold layout. cbn [rows]. by rewrite gridDims_landscape. }
  assert (Hcols : cols (layout (2 / 10) 800 400 5 500 500) = 10%Z).
  { unfold layout. cbn [cols]. by rewrite gridDims_landscape. }
  destruct (onload_resolves (2 / 10) (fun _ => 0%R) (fun _ _ => true)
              (fun _ _ => "data:,"%string) 800 400 5 500 500) as [res Hres].
  - rewrite Hrows. lia.
  - rewrite Hcols. lia.
  - done.
  - exists res. split; [exact Hres |].
    destruct (resolved_has_every_piece (2 / 10) (fun _ => 0%R) (fun _ _ => true)
                (fun _ _ => "data:,"%string) (Some (800, 400)%R) 5 500 500 res Hres)
      as (w & h & [= <- <-] & Hlen & _).
    rewrite Hrows, Hcols in Hlen. lia.
Defined.

(** C7.  Every piece of a resolved result carries the metadata of its
    cell [(row, col)]: [id = row * cols + col]; [width] and [height] are
    the piece size plus [2 * tabSize], where [tabSize] is
    [min(pieceWidth, pieceHeight) * TAB_SIZE_RATIO]; [correctPos] is
    [(col * pieceWidth - tabSize, row * pieceHeight - tabSize)];
    [currentPos] is [(0, 0)]; the piece is not locked; and [shape] is the
    shape of its cell in the grid. *)
Theorem piece_metadata (TAB_SIZE_RATIO : R) (random : nat -> R)
    (getContext : nat -> nat -> bool) (toDataURL : nat -> nat -> string)
    (imgW imgH : R) (gridSize : Z)
    (maxContainerWidth maxContainerHeight : R) (res : Result.t)
    (p : PuzzlePiece.t) :
  generatePuzzle TAB_SIZE_RATIO random getContext toDataURL (Some (imgW, imgH))
                 gridSize maxContainerWidth maxContainerHeight = Resolved res ->
  In p (Result.pieces res) ->
  let L := layout TAB_SIZE_RATIO imgW imgH gridSize
                  maxContainerWidth maxContainerHeight in
  let row := PuzzlePiece.row p in
  let col := PuzzlePiece.col p in
  (Z.of_nat row < rows L)%Z /\ (Z.of_nat col < cols L)%Z
  /\ PuzzlePiece.id p = row * Z.to_nat (cols L) + col
  /\ tabSize L = (Rmin (pieceWidth L) (pieceHeight L) * TAB_SIZE_RATIO)%R
  /\ PuzzlePiece.width p = (pieceWidth L + 2 * tabSize L)%R
  /\ PuzzlePiece.height p = (pieceHeight L + 2 * tabSize L)%R
  /\ PuzzlePiece.correctPos p
     = Point.mk (INR col * pieceWidth L - tabSize L) (INR row * pieceHeight L - tabSize L)
  /\ PuzzlePiece.currentPos p = Point.mk 0 0
  /\ PuzzlePiece.isLocked p = false
  /\ exists g,
       generateShapes random (Z.to_nat (rows L)) (Z.to_nat (cols L)) = Some g
       /\ getShape g row col = Some (PuzzlePiece.shape p).
Proof.
  cbn [generatePuzzle].
  intros (Hrows & Hcols & g & st & Hg & Hfilled & Hrun & Hres & ->)%onload_resolved.
  cbn [Result.pieces]. intros [i Hp]%list_elem_of_In%list_elem_of_lookup.
  cbn zeta.
  set (L := layout TAB_SIZE_RATIO imgW imgH gridSize
                   maxContainerWidth maxContainerHeight) in *.
  destruct (rasterize_resolved getContext toDataURL L g ltac:(lia) Hcols Hfilled
              st Hrun Hres) as (_ & _ & Hpieces).
  destruct (Hpieces i p Hp) as (_ & Hrow & Hcol & _ & s & Hs & Heq).
  assert (Hshape : PuzzlePiece.shape p = s) by (by rewrite Heq).
  split_and!.
  - lia.
  - lia.
  - by rewrite Heq at 1.
  - done.
  - rewrite Heq at 1. cbn [makePiece PuzzlePiece.width]. lra.
  - rewrite Heq at 1. cbn [makePiece PuzzlePiece.height]. lra.
  - by rewrite Heq at 1.
  - by rewrite Heq.
  - by rewrite Heq.
  - exists g. split; [done |]. by rewrite Hshape.
Qed.

Lemma piece_metadata_example :
  exists res p,
    generatePuzzle (2 / 10) (fun _ => 0%R) (fun _ _ => true)
      (fun _ _ => "data:,"%string) (Some (800, 400)%R) 5 500 500 = Resolved res
    /\ In p (Result.pieces res)
    /\ PuzzlePiece.currentPos p = Point.mk 0 0
    /\ PuzzlePiece.isLocked p = false.
Proof.
  destruct (onload_resolves (2 / 10) (fun _ => 0%R) (fun _ _ => true)
              (fun _ _ => "data:,"%string) 800 400 5 500 500) as [res Hres].
  - unfold layout. cbn [rows]. rewrite gridDims_landscape. cbn [fst]. lia.
  - unfold layout. cbn [cols]. rewrite gridDims_landscape. cbn [snd]. lia.
  - done.
  - destruct (onload_resolved_nonempty _ _ _ _ _ _ _ _ _ _ Hres) as [p Hp].
    exists res, p. split; [exact Hres |]. split; [exact Hp |].
    destruct (piece_metadata (2 / 10) (fun _ => 0%R) (fun _ _ => true)
                (fun _ _ => "data:,"%string) 800 400 5 500 500 res p Hres Hp)
      as (_ & _ & _ & _ & _ & _ & _ & Hcur & Hlock & _).
    by split.
Defined.

(** ** The cut between two neighbouring pieces *)

Section PathFacts.
Local Open Scope R_scope.

(** A point of a cubic Bezier curve is a convex combination of its four
    control points. *)
Lemma bernstein_le a b c d m t :
  0 <= t <= 1 -> a <= m -> b <= m -> c <= m -> d <= m ->
  bernstein a b c d t <= m.
Proof.
  intros Ht Ha Hb Hc Hd. unfold bernstein.
  assert (H0 : 0 <= (1 - t) * (1 - t) * (1 - t))
    by (repeat apply Rmult_le_pos; lra).
  assert (H1 : 0 <= 3 * ((1 - t) * (1 - t)) * t)
    by (repeat apply Rmult_le_pos; lra).
  assert (H2 : 0 <= 3 * (1 - t) * (t * t))
    by (repeat apply Rmult_le_pos; lra).
  assert (H3 : 0 <= t * t * t)
    by (repeat apply Rmult_le_pos; lra).
  assert (P0 : 0 <= (1 - t) * (1 - t) * (1 - t) * (m - a))
    by (apply Rmult_le_pos; lra).
  assert (P1 : 0 <= 3 * ((1 - t) * (1 - t)) * t * (m - b))
    by (apply Rmult_le_pos; lra).
  assert (P2 : 0 <= 3 * (1 - t) * (t * t) * (m - c))
    by (apply Rmult_le_pos; lra).
  assert (P3 : 0 <= t * t * t * (m - d))
    by (apply Rmult_le_pos; lra).
  lra.
Qed.

(** The length of an axis-parallel edge of 100 pixels. *)
Lemma edge_length_100 dx dy :
  dx = 0 -> dy = 100 \/ dy = -100 -> sqrt (dx * dx + dy * dy) = 100.
Proof.
  intros -> Hdy. replace (0 * 0 + dy * dy) with (100 * 100) by (destruct Hdy; subst; lra).
  apply sqrt_square. lra.
Qed.

(** The right edge of a 100 x 100 piece on a canvas with a margin of 20,
    from (120, 20) down to (120, 120), with edge value 1 and tab size 20. *)
Lemma drawTab_this_side :
  drawTab 120 20 120 120 (IZR 1) 20
  = [ BezierCurveTo (Point.mk 116 50) (Point.mk 100 66) (Point.mk 100 70);
      BezierCurveTo (Point.mk 100 70) (Point.mk 100 74) (Point.mk 116 90);
      LineTo (Point.mk 120 120) ].
Proof.
  unfold drawTab. cbv zeta.
  rewrite (edge_length_100 (120 - 120) (120 - 20)) by lra.
  repeat (f_equal; try lra).
Qed.

(** The same edge as the piece to the right draws it: from (120, 120) up
    to (120, 20), with edge value -1. *)
Lemma drawTab_other_side :
  drawTab 120 120 120 20 (IZR (Z.opp 1)) 20
  = [ BezierCurveTo (Point.mk 116 90) (Point.mk 100 74) (Point.mk 100 70);
      BezierCurveTo (Point.mk 100 70) (Point.mk 100 66) (Point.mk 116 50);
      LineTo (Point.mk 120 20) ].
Proof.
  change (Z.opp 1) with (-1)%Z. unfold drawTab. cbv zeta.
  rewrite (edge_length_100 (120 - 120) (20 - 120)) by lra.
  repeat (f_equal; try lra).
Qed.

(** [drawTab] commutes with translations: a piece draws on its own canvas
    what it would draw at its place in the puzzle. *)
Definition translate (a b : R) (p : Point.t) : Point.t :=
  Point.mk (Point.x p + a) (Point.y p + b).

Definition translateCmd (a b : R) (c : PathCmd) : PathCmd :=
  match c with
  | MoveTo p => MoveTo (translate a b p)
  | LineTo p => LineTo (translate a b p)
  | BezierCurveTo c1 c2 p =>
      BezierCurveTo (translate a b c1) (translate a b c2) (translate a b p)
  | ClosePath => ClosePath
  end.

Lemma drawTab_translate a b x1 y1 x2 y2 dir size :
  drawTab (x1 + a) (y1 + b) (x2 + a) (y2 + b) dir size
  = map (translateCmd a b) (drawTab x1 y1 x2 y2 dir size).
Proof.
  unfold drawTab. cbv zeta.
  replace (x2 + a - (x1 + a)) with (x2 - x1) by ring.
  replace (y2 + b - (y1 + b)) with (y2 - y1) by ring.
  cbn [map translateCmd]. unfold translate. cbn [Point.x Point.y].
  set (len := sqrt _).
  repeat match goal with
         | |- _ :: _ = _ :: _ => f_equal
         | |- BezierCurveTo _ _ _ = BezierCurveTo _ _ _ => f_equal
         | |- LineTo _ = LineTo _ => f_equal
         | |- Point.mk _ _ = Point.mk _ _ => f_equal; lra
         end.
Qed.

(** The left edge of the neighbour on its own canvas, from (20, 120) up to
    (20, 20), is the edge from (120, 120) to (120, 20) once the canvas is
    put 100 pixels to the right. *)
Lemma neighbour_left_edge :
  map (translateCmd 100 0) (drawTab 20 120 20 20 (IZR (Z.opp 1)) 20)
  = drawTab 120 120 120 20 (IZR (Z.opp 1)) 20.
Proof.
  rewrite <- drawTab_translate. f_equal; lra.
Qed.

(** The path of a piece of 100 x 100 pixels with a margin of 20 whose
    right edge has value 1: flat top, the tab drawn from (120, 20) to
    (120, 120), flat bottom and left. *)
Lemma piecePath_right_tab :
  piecePath (mkLayout 300 300 3 3 100 100 20) (PieceShape.mk 0 1 0 0)
  = [MoveTo (Point.mk 20 20); LineTo (Point.mk (20 + 100) 20)]
    ++ drawTab 120 20 120 120 (IZR 1) 20
    ++ [LineTo (Point.mk 20 (20 + 100)); LineTo (Point.mk 20 20); ClosePath].
Proof.
  unfold piecePath, drawJigsawPath, drawEdge.
  cbn [tabSize pieceWidth pieceHeight PieceShape.top PieceShape.right
       PieceShape.bottom PieceShape.left Z.eqb app].
  replace (20 + 100) with 120 by lra. reflexivity.
Qed.

(** C2 as stated: the two pieces trace the same set of points along their
    shared edge. *)
Definition cutsCoincide (x1 y1 x2 y2 : R) (d : Z) (size : R) : Prop :=
  forall p : Point.t,
    edgeFromThisSide x1 y1 x2 y2 d size p <-> edgeFromOtherSide x1 y1 x2 y2 d size p.

(** C2, as the code has it.  On the edge from (120, 20) to (120, 120) with
    tab size 20, the piece that draws it downwards with edge value 1 ends
    with the straight segment from (116, 90) to the corner (120, 120), and
    the point (118, 105) lies on it; the neighbour, who draws the edge
    upwards with edge value -1, leaves that corner along a curve and never
    passes through that point.  The two cuts are mirror images of each
    other, not the same curve. *)
Theorem shared_edge_cuts_differ :
  edgeFromThisSide 120 20 120 120 1 20 (Point.mk 118 105)
  /\ ~ edgeFromOtherSide 120 20 120 120 1 20 (Point.mk 118 105)
  /\ ~ cutsCoincide 120 20 120 120 1 20.
Proof.
  assert (Hthis : edgeFromThisSide 120 20 120 120 1 20 (Point.mk 118 105)).
  { unfold edgeFromThisSide, onPath. rewrite drawTab_this_side.
    cbn [segmentsFrom]. do 2 apply Exists_cons_tl. apply Exists_cons_hd.
    exists (1 / 2). split; [lra |]. cbn [pointAt Point.x Point.y].
    f_equal; lra. }
  assert (Hother : ~ edgeFromOtherSide 120 20 120 120 1 20 (Point.mk 118 105)).
  { unfold edgeFromOtherSide, onPath. rewrite drawTab_other_side.
    cbn [segmentsFrom]. intros Hex.
    repeat match type of Hex with
           | Exists _ (_ :: _) => apply Exists_cons in Hex as [Hseg | Hex]
           | Exists _ [] => by apply Exists_nil in Hex
           end.
    - (* the curve out of the corner (120, 120) *)
      destruct Hseg as (t & Ht & Hp). cbn [pointAt Point.x Point.y] in Hp.
      injection Hp as Hx Hy. unfold bernstein in Hx, Hy.
      assert (Hzero : t * t * (1248 - 848 * t) = 0) by lra.
      apply Rmult_integral in Hzero as [Htt | Hrest]; [| lra].
      apply Rmult_integral in Htt. assert (t = 0) as -> by lra. lra.
    - (* the curve back from the head: it stays at height 70 or above it *)
      destruct Hseg as (t & Ht & Hp). cbn [pointAt Point.x Point.y] in Hp.
      injection Hp as _ Hy.
      pose proof (bernstein_le 70 70 66 50 70 t Ht) as Hle. lra.
    - (* the closing segment to (120, 20) *)
      destruct Hseg as (t & Ht & Hp). cbn [pointAt Point.x Point.y] in Hp.
      injection Hp as _ Hy. lra. }
  split; [done |]. split; [done |].
  intros Hsame. apply Hother, Hsame, Hthis.
Qed.
End PathFacts.

(** ** The interaction layer *)

Section ListFacts.
Context {A B : Type}.

Lemma lookup_map (f : A -> B) (l : list A) (i : nat) :
  map f l !! i = f <$> l !! i.
Proof.
  revert i. induction l as [| a l IH]; intros [| i]; simpl; auto.
Qed.
End ListFacts.

Section PieceListFacts.
Implicit Types (ps : list PuzzlePiece.t) (p q : PuzzlePiece.t).

Lemma findPiece_Some d ps q :
  findPiece d ps = Some q -> In q ps /\ PuzzlePiece.id q = d.
Proof.
  unfold findPiece. intros [Hin Hid%Nat.eqb_eq]%find_some. done.
Qed.

(** With distinct ids, [find] returns the one piece that has the id. *)
Lemma findPiece_unique d ps p :
  NoDup (map PuzzlePiece.id ps) -> In p ps -> PuzzlePiece.id p = d ->
  findPiece d ps = Some p.
Proof.
  unfold findPiece. induction ps as [| q ps IH]; simpl; [done |].
  intros [Hnotin Hnodup]%list.NoDup_cons [-> | Hin] Hid.
  - by rewrite (proj2 (Nat.eqb_eq _ _) Hid).
  - destruct (Nat.eqb (PuzzlePiece.id q) d) eqn:E; [| by apply IH].
    apply Nat.eqb_eq in E. exfalso. apply Hnotin.
    apply list_elem_of_In, in_map_iff. exists p. split; [congruence | done].
Qed.

(** Updating pieces in place keeps their ids. *)
Lemma map_keeps_ids (f : PuzzlePiece.t -> PuzzlePiece.t) ps :
  (forall p, PuzzlePiece.id (f p) = PuzzlePiece.id p) ->
  map PuzzlePiece.id (map f ps) = map PuzzlePiece.id ps.
Proof.
  intros Hf. rewrite map_map. apply map_ext. intros p. apply Hf.
Qed.

Lemma findPiece_map (f : PuzzlePiece.t -> PuzzlePiece.t) d ps :
  (forall p, PuzzlePiece.id (f p) = PuzzlePiece.id p) ->
  findPiece d (map f ps) = f <$> findPiece d ps.
Proof.
  intros Hf. unfold findPiece. induction ps as [| q ps IH]; simpl; [done |].
  rewrite Hf. destruct (Nat.eqb (PuzzlePiece.id q) d); [done | apply IH].
Qed.
End PieceListFacts.

Section GameFacts.
Local Open Scope R_scope.
Import Game.

Variable SNAP_TOLERANCE : R.

Implicit Types (s : State) (p q : PuzzlePiece.t) (ps : list PuzzlePiece.t).

(** The three [prev.map(...)] updates replace the pieces with one id. *)
Definition updatePiece (d : nat) (f : PuzzlePiece.t -> PuzzlePiece.t) ps :=
  map (fun p => if Nat.eqb (PuzzlePiece.id p) d then f p else p) ps.

Lemma updatePiece_unless d f ps :
  map (fun p => if negb (Nat.eqb (PuzzlePiece.id p) d) then p else f p) ps
  = updatePiece d f ps.
Proof.
  apply map_ext. intros p. by destruct (Nat.eqb (PuzzlePiece.id p) d).
Qed.

Lemma updatePiece_lookup d f ps i :
  updatePiece d f ps !! i
  = (fun p => if Nat.eqb (PuzzlePiece.id p) d then f p else p) <$> ps !! i.
Proof. apply lookup_map. Qed.

Lemma updatePiece_other d f ps i p :
  ps !! i = Some p -> PuzzlePiece.id p <> d -> updatePiece d f ps !! i = Some p.
Proof.
  intros Hp Hne. rewrite updatePiece_lookup, Hp. simpl.
  by rewrite (proj2 (Nat.eqb_neq _ _) Hne).
Qed.

Lemma updatePiece_In d f ps p' :
  In p' (updatePiece d f ps) ->
  exists p, In p ps
    /\ p' = if Nat.eqb (PuzzlePiece.id p) d then f p else p.
Proof.
  unfold updatePiece. intros (p & Heq & Hin)%in_map_iff. by exists p.
Qed.

Lemma updatePiece_ids d f ps :
  (forall p, PuzzlePiece.id (f p) = PuzzlePiece.id p) ->
  map PuzzlePiece.id (updatePiece d f ps) = map PuzzlePiece.id ps.
Proof.
  intros Hf. apply map_keeps_ids. intros p.
  by destruct (Nat.eqb (PuzzlePiece.id p) d).
Qed.

Lemma checkCompletion_keeps s :
  pieces (checkCompletion s) = pieces s
  /\ draggedPieceId (checkCompletion s) = draggedPieceId s
  /\ dragOffset (checkCompletion s) = dragOffset s.
Proof. unfold checkCompletion. by destruct (_ && _). Qed.

Lemma startTimer_keeps now s :
  pieces (startTimer now s) = pieces s
  /\ draggedPieceId (startTimer now s) = draggedPieceId s
  /\ dragOffset (startTimer now s) = dragOffset s.
Proof. unfold startTimer. by destruct (_ && _). Qed.

(** What each handler does to the pieces and to the dragged id. *)
Lemma handlePointerDown_effect pieceId clientX clientY boardLeft boardTop now s :
  let s' := handlePointerDown pieceId clientX clientY boardLeft boardTop now s in
  match findPiece pieceId (pieces s) with
  | Some piece =>
      if PuzzlePiece.isLocked piece
      then pieces s' = pieces s /\ draggedPieceId s' = draggedPieceId s
           /\ dragOffset s' = dragOffset s
      else pieces s'
           = updatePiece pieceId (PuzzlePiece.with_zIndex (maxZ (pieces s) + 1)) (pieces s)
           /\ draggedPieceId s' = Some pieceId
  | None => pieces s' = pieces s /\ draggedPieceId s' = draggedPieceId s
            /\ dragOffset s' = dragOffset s
  end.
Proof.
  unfold handlePointerDown.
  destruct (findPiece pieceId (pieces s)) as [piece |]; [| apply startTimer_keeps].
  destruct (PuzzlePiece.isLocked piece); [apply startTimer_keeps |].
  destruct (startTimer_keeps now s) as (Hp & _ & _).
  match goal with |- context [checkCompletion ?st] =>
    destruct (checkCompletion_keeps st) as (-> & -> & _) end.
  simpl. by rewrite Hp.
Qed.

Lemma handlePointerMove_effect clientX clientY boardRect s :
  let s' := handlePointerMove clientX clientY boardRect s in
  draggedPieceId s' = draggedPieceId s
  /\ match draggedPieceId s, boardRect with
     | Some dragged, Some (boardLeft, boardTop) =>
         pieces s'
         = updatePiece dragged
             (PuzzlePiece.with_currentPos
                (Point.mk (clientX - boardLeft - Point.x (dragOffset s))
                          (clientY - boardTop - Point.y (dragOffset s))))
             (pieces s)
     | _, _ => pieces s' = pieces s
     end.
Proof.
  unfold handlePointerMove.
  destruct (draggedPieceId s) as [dragged |] eqn:Hd; [| by rewrite Hd].
  destruct boardRect as [[boardLeft boardTop] |]; [| by rewrite Hd].
  match goal with |- context [checkCompletion ?st] =>
    destruct (checkCompletion_keeps st) as (-> & -> & _) end.
  simpl. split; [done |]. apply updatePiece_unless.
Qed.

Lemma handlePointerUp_effect s :
  let s' := handlePointerUp SNAP_TOLERANCE s in
  match draggedPieceId s with
  | Some dragged =>
      draggedPieceId s' = None
      /\ match findPiece dragged (pieces s) with
         | Some piece =>
             if Rlt_dec (snapDistance piece) SNAP_TOLERANCE
             then pieces s' = updatePiece dragged PuzzlePiece.snapped (pieces s)
             else pieces s' = pieces s
         | None => pieces s' = pieces s
         end
  | None => s' = s
  end.
Proof.
  unfold handlePointerUp.
  destruct (draggedPieceId s) as [dragged |]; [| done].
  split; [done |].
  destruct (findPiece dragged (pieces s)) as [piece |]; [| done].
  destruct (Rlt_dec _ _); [| done].
  cbn [pieces setDraggedPieceId].
  match goal with |- context [checkCompletion ?st] =>
    destruct (checkCompletion_keeps st) as (-> & _) end.
  simpl. apply updatePiece_unless.
Qed.

(** The invariant of play: ids are distinct, a locked piece sits on its
    correct position, and the piece being dragged is not locked. *)
Definition gameInv s : Prop :=
  NoDup (map PuzzlePiece.id (pieces s))
  /\ (forall p, In p (pieces s) -> PuzzlePiece.isLocked p = true ->
        PuzzlePiece.currentPos p = PuzzlePiece.correctPos p)
  /\ (forall p, In p (pieces s) ->
        draggedPieceId s = Some (PuzzlePiece.id p) -> PuzzlePiece.isLocked p = false).

Lemma lookup_In ps i p : ps !! i = Some p -> In p ps.
Proof. intros Hp. apply list_elem_of_In, list_elem_of_lookup. by exists i. Qed.

(** Under the invariant, an update of the pieces with id [d], made when
    the piece that [find] returns for [d] is not locked, passes by the
    locked pieces. *)
Lemma updatePiece_skips_locked d f ps piece i p :
  NoDup (map PuzzlePiece.id ps) ->
  findPiece d ps = Some piece -> PuzzlePiece.isLocked piece = false ->
  ps !! i = Some p -> PuzzlePiece.isLocked p = true ->
  updatePiece d f ps !! i = Some p.
Proof.
  intros Hnodup Hfind Hfree Hp Hlocked. apply updatePiece_other; [done |].
  intros Hid. rewrite (findPiece_unique d ps p Hnodup (lookup_In _ _ _ Hp) Hid) in Hfind.
  congruence.
Qed.

Lemma gameInv_update s s' d f :
  gameInv s ->
  pieces s' = updatePiece d f (pieces s) ->
  (forall p, PuzzlePiece.id (f p) = PuzzlePiece.id p) ->
  (forall p, In p (pieces s) -> PuzzlePiece.id p = d ->
     PuzzlePiece.isLocked p = false
     /\ (PuzzlePiece.isLocked (f p) = true ->
         PuzzlePiece.currentPos (f p) = PuzzlePiece.correctPos (f p))
     /\ (draggedPieceId s' = Some d -> PuzzlePiece.isLocked (f p) = false)) ->
  (forall e, draggedPieceId s' = Some e -> e = d \/ draggedPieceId s = Some e) ->
  gameInv s'.
Proof.
  intros (Hnodup & Hhome & Hfree) Hps Hid Hf Hdrag. unfold gameInv. rewrite Hps.
  split_and!.
  - by rewrite updatePiece_ids.
  - intros p' (p & Hin & ->)%updatePiece_In.
    destruct (Nat.eqb (PuzzlePiece.id p) d) eqn:E.
    + apply Nat.eqb_eq in E. by apply Hf.
    + by apply Hhome.
  - intros p' (p & Hin & ->)%updatePiece_In.
    destruct (Nat.eqb (PuzzlePiece.id p) d) eqn:E.
    + apply Nat.eqb_eq in E. rewrite Hid. rewrite E. by apply Hf.
    + apply Nat.eqb_neq in E. intros [Heq | Hold]%Hdrag; [done |]. by apply Hfree.
Qed.

Lemma gameInv_same_pieces s s' :
  gameInv s -> pieces s' = pieces s ->
  (draggedPieceId s' = draggedPieceId s \/ draggedPieceId s' = None) ->
  gameInv s'.
Proof.
  intros (Hnodup & Hhome & Hfree) Hps Hdrag. unfold gameInv. rewrite Hps.
  split_and!; [done | done |].
  intros p Hin Hd. destruct Hdrag as [Hsame | Hnone]; [| congruence].
  apply Hfree; [done | congruence].
Qed.

(** Every handler keeps the invariant. *)
Lemma handle_gameInv e s : gameInv s -> gameInv (handle SNAP_TOLERANCE e s).
Proof.
  intros Hinv. pose proof Hinv as (Hnodup & Hhome & Hfree).
  destruct e as [pieceId cx cy bl bt now | cx cy rect |]; cbn [handle].
  - pose proof (handlePointerDown_effect pieceId cx cy bl bt now s) as Heff.
    cbv zeta in Heff.
    destruct (findPiece pieceId (pieces s)) as [piece |] eqn:Hfind.
    + destruct (PuzzlePiece.isLocked piece) eqn:Hlock.
      * destruct Heff as (Hps & Hd & _). apply (gameInv_same_pieces s); auto.
      * destruct Heff as [Hps Hd].
        apply (gameInv_update s _ pieceId _ Hinv Hps); [done | | ].
        -- intros p Hin Hid.
           rewrite (findPiece_unique pieceId _ p Hnodup Hin Hid) in Hfind.
           injection Hfind as ->. split_and!; [done | | done].
           cbn [PuzzlePiece.with_zIndex PuzzlePiece.isLocked]. congruence.
        -- intros e. rewrite Hd. intros [= <-]. by left.
    + destruct Heff as (Hps & Hd & _). apply (gameInv_same_pieces s); auto.
  - pose proof (handlePointerMove_effect cx cy rect s) as [Hd Hps].
    destruct (draggedPieceId s) as [dragged |] eqn:Hdragged;
      [| apply (gameInv_same_pieces s); auto; left; congruence].
    destruct rect as [[bl bt] |];
      [| apply (gameInv_same_pieces s); auto; left; congruence].
    apply (gameInv_update s _ dragged _ Hinv Hps); [done | | ].
    + intros p Hin Hid.
      assert (PuzzlePiece.isLocked p = false) by (apply Hfree; congruence).
      split_and!; [done | | done].
      cbn [PuzzlePiece.with_currentPos PuzzlePiece.isLocked]. congruence.
    + intros e. rewrite Hd. intros [= <-]. by left.
  - pose proof (handlePointerUp_effect s) as Heff. cbv zeta in Heff.
    destruct (draggedPieceId s) as [dragged |] eqn:Hdragged; [| by rewrite Heff].
    destruct Heff as [Hd Hps].
    destruct (findPiece dragged (pieces s)) as [piece |];
      [| apply (gameInv_same_pieces s); auto].
    destruct (Rlt_dec _ _); [| apply (gameInv_same_pieces s); auto].
    apply (gameInv_update s _ dragged _ Hinv Hps); [done | | ].
    + intros p Hin Hid.
      assert (PuzzlePiece.isLocked p = false) by (apply Hfree; congruence).
      split_and!; [done | done | congruence].
    + intros e. congruence.
Qed.

Lemma play_gameInv es s : gameInv s -> gameInv (play SNAP_TOLERANCE es s).
Proof.
  revert s. induction es as [| e es IH]; intros s Hinv; [done |].
  apply IH, handle_gameInv, Hinv.
Qed.

(** No handler changes a locked piece. *)
Lemma handle_keeps_locked e s i p :
  gameInv s -> pieces s !! i = Some p -> PuzzlePiece.isLocked p = true ->
  pieces (handle SNAP_TOLERANCE e s) !! i = Some p.
Proof.
  intros (Hnodup & Hhome & Hfree) Hp Hlocked.
  assert (Hnot : draggedPieceId s <> Some (PuzzlePiece.id p)).
  { intros Hd. pose proof (Hfree p (lookup_In _ _ _ Hp) Hd). congruence. }
  destruct e as [pieceId cx cy bl bt now | cx cy rect |]; cbn [handle].
  - pose proof (handlePointerDown_effect pieceId cx cy bl bt now s) as Heff.
    cbv zeta in Heff.
    destruct (findPiece pieceId (pieces s)) as [piece |] eqn:Hfind.
    + destruct (PuzzlePiece.isLocked piece) eqn:Hlock.
      * destruct Heff as (-> & _). done.
      * destruct Heff as [-> _]. by apply (updatePiece_skips_locked _ _ _ piece).
    + destruct Heff as (-> & _). done.
  - pose proof (handlePointerMove_effect cx cy rect s) as [_ Hps].
    destruct (draggedPieceId s) as [dragged |]; [| by rewrite Hps].
    destruct rect as [[bl bt] |]; [| by rewrite Hps].
    rewrite Hps. apply updatePiece_other; [done | congruence].
  - pose proof (handlePointerUp_effect s) as Heff. cbv zeta in Heff.
    destruct (draggedPieceId s) as [dragged |]; [| by rewrite Heff].
    destruct Heff as [_ Hps].
    destruct (findPiece dragged (pieces s)) as [piece |]; [| by rewrite Hps].
    destruct (Rlt_dec _ _); [| by rewrite Hps].
    rewrite Hps. apply updatePiece_other; [done | congruence].
Qed.

(** C9.  Under the invariant of play, a locked piece sits on its correct
    position; a pointer-down on it changes neither the pieces, nor the
    dragged id, nor the drag offset; and after any sequence of pointer
    events the piece is still there, unchanged in every field. *)
Theorem locked_piece_is_final (es : list Event) s i p :
  gameInv s -> pieces s !! i = Some p -> PuzzlePiece.isLocked p = true ->
  PuzzlePiece.currentPos p = PuzzlePiece.correctPos p
  /\ (forall clientX clientY boardLeft boardTop now,
        let s' := handlePointerDown (PuzzlePiece.id p) clientX clientY
                                    boardLeft boardTop now s in
        pieces s' = pieces s /\ draggedPieceId s' = draggedPieceId s
        /\ dragOffset s' = dragOffset s)
  /\ pieces (play SNAP_TOLERANCE es s) !! i = Some p.
Proof.
  intros Hinv Hp Hlocked. split_and!.
  - destruct Hinv as (_ & Hhome & _). apply Hhome; [| done]. by apply (lookup_In _ i).
  - intros cx cy bl bt now.
    pose proof (handlePointerDown_effect (PuzzlePiece.id p) cx cy bl bt now s) as Heff.
    destruct Hinv as (Hnodup & _).
    rewrite (findPiece_unique _ _ p Hnodup (lookup_In _ _ _ Hp) eq_refl) in Heff.
    by rewrite Hlocked in Heff.
  - revert s Hinv Hp. induction es as [| e es IH]; intros s Hinv Hp; [done |].
    cbn [play fold_left]. apply IH.
    + by apply handle_gameInv.
    + by apply handle_keeps_locked.
Qed.

(** C10.  A pointer-move and a pointer-up leave every piece whose id is
    not the dragged id as it is, at its place in the list. *)
Theorem move_and_up_touch_only_dragged s i p :
  pieces s !! i = Some p -> draggedPieceId s <> Some (PuzzlePiece.id p) ->
  (forall clientX clientY boardRect,
     pieces (handlePointerMove clientX clientY boardRect s) !! i = Some p)
  /\ pieces (handlePointerUp SNAP_TOLERANCE s) !! i = Some p.
Proof.
  intros Hp Hother. split.
  - intros cx cy rect.
    pose proof (handlePointerMove_effect cx cy rect s) as [_ Hps].
    destruct (draggedPieceId s) as [dragged |]; [| by rewrite Hps].
    destruct rect as [[bl bt] |]; [| by rewrite Hps].
    rewrite Hps. apply updatePiece_other; [done | congruence].
  - pose proof (handlePointerUp_effect s) as Heff. cbv zeta in Heff.
    destruct (draggedPieceId s) as [dragged |]; [| by rewrite Heff].
    destruct Heff as [_ Hps].
    destruct (findPiece dragged (pieces s)) as [piece |]; [| by rewrite Hps].
    destruct (Rlt_dec _ _); [| by rewrite Hps].
    rewrite Hps. apply updatePiece_other; [done | congruence].
Qed.
End GameFacts.

(** ** A board with two pieces *)

Section Examples.
Local Open Scope R_scope.
Import Game.

(** A 100 x 100 piece with a margin of 20 on a one-row board. *)
Definition boardPiece (id : nat) (currentPos correctPos : Point.t) (isLocked : bool)
  : PuzzlePiece.t :=
  PuzzlePiece.mk id 0 id correctPos currentPos flatShape "data:,"%string
                 140 140 isLocked (if isLocked then 0 else 1).

(** Piece 0 is locked at its place; piece 1 is being dragged. *)
Definition lockedPiece : PuzzlePiece.t :=
  boardPiece 0 (Point.mk (-20) (-20)) (Point.mk (-20) (-20)) true.

Definition boardAt (x y : R) : State :=
  Game.mk [lockedPiece; boardPiece 1 (Point.mk x y) (Point.mk 80 (-20)) false]
          (Some 1%nat) (Point.mk 10 10) false true (Some 0).

Lemma boardAt_gameInv x y : gameInv (boardAt x y).
Proof.
  unfold gameInv, boardAt. cbn [pieces draggedPieceId map]. split_and!.
  - apply NoDup_cons_2; [| apply NoDup_singleton].
    intros Hin%list_elem_of_In. simpl in Hin. destruct Hin as [Hin | []]. done.
  - intros p [<- | [<- | []]]; [done | discriminate].
  - intros p [<- | [<- | []]]; [discriminate | done].
Qed.

End Examples.

(** The locked piece 0 through a move, a release, a press on it and
    another move. *)
Lemma locked_piece_is_final_example :
  Game.pieces
    (play 20 [Game.PointerMove 200 50 (Some (0, 0)%R); Game.PointerUp;
              Game.PointerDown 0 5 5 0 0 1000; Game.PointerMove 7 7 (Some (0, 0)%R)]
          (boardAt 300 40)) !! 0 = Some lockedPiece.
Proof.
  apply (locked_piece_is_final 20 _ (boardAt 300 40) 0 lockedPiece).
  - apply boardAt_gameInv.
  - reflexivity.
  - reflexivity.
Defined.

(** Piece 0 is not the dragged piece 1. *)
Lemma move_and_up_touch_only_dragged_example :
  Game.pieces (handlePointerMove 200 50 (Some (0, 0)%R) (boardAt 300 40)) !! 0
  = Some lockedPiece
  /\ Game.pieces (handlePointerUp 20 (boardAt 300 40)) !! 0 = Some lockedPiece.
Proof.
  destruct (move_and_up_touch_only_dragged 20 (boardAt 300 40) 0 lockedPiece)
    as [Hmove Hup].
  - reflexivity.
  - discriminate.
  - split; [apply Hmove | apply Hup].
Defined.

(** ** The release of a piece on doubles *)

Section ReleaseFacts.
Import PrimFloat.
Import Binary64Game.

Variable Math_pow : float -> float -> float.
Variable SNAP_TOLERANCE : float.

Implicit Types (rendered prev : State) (p piece : PuzzlePiece.t).

(** What a release does to the pieces: the test is made on the piece of
    the render, the update on the pieces at the time it is applied. *)
Lemma handlePointerUp_effect64 rendered prev dragged piece :
  draggedPieceId rendered = Some dragged ->
  findPiece dragged (pieces rendered) = Some piece ->
  let s' := handlePointerUp Math_pow SNAP_TOLERANCE rendered prev in
  draggedPieceId s' = None
  /\ pieces s'
     = if (snapDistance Math_pow piece <? SNAP_TOLERANCE)%float
       then map (fun p => if negb (Nat.eqb (PuzzlePiece.id p) dragged) then p
                          else PuzzlePiece.snapped p) (pieces prev)
       else pieces prev.
Proof.
  intros Hd Hfind. unfold handlePointerUp. rewrite Hd, Hfind.
  by destruct (snapDistance Math_pow piece <? SNAP_TOLERANCE)%float.
Qed.

(** C8 as stated, for a release that follows a render: within the
    tolerance the dragged piece is snapped and locked, beyond it the piece
    is left as it is. *)
Definition snapsWithinTolerance s : Prop :=
  forall dragged piece,
    draggedPieceId s = Some dragged ->
    findPiece dragged (pieces s) = Some piece ->
    ((snapDistance Math_pow piece <=? SNAP_TOLERANCE)%float = true ->
       findPiece dragged (pieces (handlePointerUp Math_pow SNAP_TOLERANCE s s))
       = Some (PuzzlePiece.snapped piece))
    /\ ((SNAP_TOLERANCE <? snapDistance Math_pow piece)%float = true ->
        findPiece dragged (pieces (handlePointerUp Math_pow SNAP_TOLERANCE s s))
        = Some piece).

(** C8, as the code has it.  A piece [p] is released, and the handler sees
    it where it was dropped: the piece [piece] that the handler finds in
    the pieces of its render has the current and the correct position of
    [p].  Let [dist] be the distance as the handler computes it on
    doubles, [Math.sqrt(Math.pow(dx, 2) + Math.pow(dy, 2))].  If
    [dist < SNAP_TOLERANCE], [p] is moved onto its correct position and
    locked; if not ([dist] is the tolerance or above it, or not a number),
    [p] is left as it is.  Either way no piece is dragged any more. *)
Theorem release_snaps_below_tolerance rendered prev dragged piece i p :
  draggedPieceId rendered = Some dragged ->
  findPiece dragged (pieces rendered) = Some piece ->
  pieces prev !! i = Some p ->
  PuzzlePiece.id p = dragged ->
  PuzzlePiece.currentPos piece = PuzzlePiece.currentPos p ->
  PuzzlePiece.correctPos piece = PuzzlePiece.correctPos p ->
  let dist :=
    sqrt (Math_pow (Point.x (PuzzlePiece.currentPos p)
                    - Point.x (PuzzlePiece.correctPos p)) 2
          + Math_pow (Point.y (PuzzlePiece.currentPos p)
                      - Point.y (PuzzlePiece.correctPos p)) 2)%float in
  let s' := handlePointerUp Math_pow SNAP_TOLERANCE rendered prev in
  ((dist <? SNAP_TOLERANCE)%float = true ->
     exists p',
       pieces s' !! i = Some p'
       /\ p' = PuzzlePiece.snapped p
       /\ PuzzlePiece.currentPos p' = PuzzlePiece.correctPos p
       /\ PuzzlePiece.isLocked p' = true)
  /\ ((dist <? SNAP_TOLERANCE)%float = false -> pieces s' !! i = Some p)
  /\ draggedPieceId s' = None.
Proof.
  intros Hd Hfind Hp Hid Hcur Hcor.
  destruct (handlePointerUp_effect64 rendered prev dragged piece Hd Hfind)
    as [Hnone Hps].
  cbv zeta. rewrite Hps. unfold snapDistance. rewrite Hcur, Hcor.
  split_and!; [| | done].
  - intros ->. exists (PuzzlePiece.snapped p). split_and!; try done.
    rewrite list_lookup_fmap, Hp. cbn [fmap option_fmap option_map].
    by rewrite Hid, Nat.eqb_refl.
  - by intros ->.
Qed.
End ReleaseFacts.

Section ReleaseExamples.
Import PrimFloat.
Import Binary64Game.

(** A 100 x 100 piece with a margin of 20 on a one-row board. *)
Definition releasedPiece (id : nat) (currentPos correctPos : Point.t) (isLocked : bool)
  : PuzzlePiece.t :=
  PuzzlePiece.mk id 0 id correctPos currentPos flatShape "data:,"%string
                 140 140 isLocked (if isLocked then 0 else 1).

(** Piece 0 is locked at its place; piece 1, whose place is [(80, -20)],
    is being dragged and is at [(x, y)]. *)
Definition releaseBoard (x y : float) : State :=
  Binary64Game.mk
    [releasedPiece 0 (Point.mk (-20) (-20)) (Point.mk (-20) (-20)) true;
     releasedPiece 1 (Point.mk x y) (Point.mk 80 (-20)) false]
    (Some 1%nat) (Point.mk 10 10).

(** Piece 1 released 5 pixels from its place, on the board as rendered,
    with a tolerance of 20. *)
Lemma release_snaps_below_tolerance_example :
  exists p',
    pieces (handlePointerUp square_pow 20 (releaseBoard 83 (-16)) (releaseBoard 83 (-16)))
      !! 1%nat = Some p'
    /\ PuzzlePiece.currentPos p' = Point.mk 80 (-20)
    /\ PuzzlePiece.isLocked p' = true.
Proof.
  destruct (release_snaps_below_tolerance square_pow 20
              (releaseBoard 83 (-16)) (releaseBoard 83 (-16)) 1
              (releasedPiece 1 (Point.mk 83 (-16)) (Point.mk 80 (-20)) false) 1
              (releasedPiece 1 (Point.mk 83 (-16)) (Point.mk 80 (-20)) false)
              eq_refl eq_refl eq_refl eq_refl eq_refl eq_refl) as (Hnear & _ & _).
  destruct (Hnear eq_refl) as (p' & Hp' & _ & Hpos & Hlock).
  exists p'. by split_and!.
Defined.

(** Piece 1 released 20 pixels to the right of its place, with a tolerance
    of 20: the offsets are the doubles 20 (written over [2^48]) and 0 and
    the distance is the double 20, within the tolerance, and the piece is
    neither moved nor locked. *)
Lemma release_at_tolerance_does_not_snap :
  Binary64.exact (100 - 80)%float = Some (20 * 2 ^ 48, 2 ^ 48)%Z
  /\ Binary64.exact (-20 - -20)%float = Some (0, 1)%Z
  /\ snapDistance square_pow
       (releasedPiece 1 (Point.mk 100 (-20)) (Point.mk 80 (-20)) false) = 20%float
  /\ pieces (handlePointerUp square_pow 20 (releaseBoard 100 (-20)) (releaseBoard 100 (-20)))
     = pieces (releaseBoard 100 (-20))
  /\ ~ snapsWithinTolerance square_pow 20 (releaseBoard 100 (-20)).
Proof.
  split_and!; try (vm_compute; reflexivity).
  intros Hclaim.
  destruct (Hclaim 1%nat (releasedPiece 1 (Point.mk 100 (-20)) (Point.mk 80 (-20)) false)
              eq_refl eq_refl) as [Hsnap _].
  specialize (Hsnap eq_refl). vm_compute in Hsnap. discriminate Hsnap.
Qed.

(** The distance is a rounded one.  Piece 1 at [(92, -4.000000000000002)]:
    the offsets are the doubles 12 and [16 - 2^-49] (both written over
    [2^49]), whose squares sum to less than [20^2], yet the computed
    distance is the double 20 and the piece is not snapped. *)
Example rounded_distance_misses_snap :
  Binary64.exact (92 - 80)%float = Some (12 * 2 ^ 49, 2 ^ 49)%Z
  /\ Binary64.exact (-0x1.0000000000002p+2 - -20)%float = Some (2 ^ 53 - 1, 2 ^ 49)%Z
  /\ (12 * 12 * (2 ^ 49 * 2 ^ 49) + (2 ^ 53 - 1) * (2 ^ 53 - 1)
      < 20 * 20 * (2 ^ 49 * 2 ^ 49))%Z
  /\ snapDistance square_pow
       (releasedPiece 1 (Point.mk 92 (-0x1.0000000000002p+2)) (Point.mk 80 (-20)) false)
     = 20%float
  /\ pieces (handlePointerUp square_pow 20 (releaseBoard 92 (-0x1.0000000000002p+2))
                             (releaseBoard 92 (-0x1.0000000000002p+2)))
     = pieces (releaseBoard 92 (-0x1.0000000000002p+2)).
Proof. split_and!; vm_compute; reflexivity. Qed.

(** The test is made on the render, not on the dropped position.  The
    board was rendered with piece 1 five pixels from its place; a move to
    the pointer position [(400, 300)] has been applied since but not
    rendered, so that the piece is at [(390, 290)] when it is released:
    it is snapped all the same.  And the other way round: rendered far
    from its place and released on it, the piece is not snapped. *)
Example release_decides_on_rendered_position :
  let rendered := releaseBoard 83 (-16) in
  let moved := handlePointerMove 400 300 (Some (0, 0)%float) rendered rendered in
  pieces moved !! 1%nat
  = Some (releasedPiece 1 (Point.mk 390 290) (Point.mk 80 (-20)) false)
  /\ pieces (handlePointerUp square_pow 20 rendered moved) !! 1%nat
     = Some (PuzzlePiece.snapped
               (releasedPiece 1 (Point.mk 390 290) (Point.mk 80 (-20)) false))
  /\ pieces (handlePointerUp square_pow 20 moved rendered) !! 1%nat
     = Some (releasedPiece 1 (Point.mk 83 (-16)) (Point.mk 80 (-20)) false).
Proof. split_and!; vm_compute; reflexivity. Qed.
End ReleaseExamples.

(** ** From the generator to the board *)

Section InitGameFacts.
Import Game.

(** Pieces whose ids are their indices have distinct ids. *)
Lemma NoDup_ids_by_index (ps : list PuzzlePiece.t) :
  (forall i p, ps !! i = Some p -> PuzzlePiece.id p = i) ->
  NoDup (map PuzzlePiece.id ps).
Proof.
  intros Hids. replace (map PuzzlePiece.id ps) with (seq 0 (length ps)).
  { apply NoDup_seq. }
  apply list_eq. intros i. rewrite lookup_map.
  destruct (ps !! i) as [p |] eqn:Hp; simpl.
  - rewrite (Hids i p Hp). apply lookup_seq. split; [done |].
    by apply lookup_lt_Some in Hp.
  - apply lookup_ge_None. rewrite length_seq. by apply lookup_ge_None in Hp.
Qed.

(** The pieces of a resolved result are numbered by their index and none
    is locked. *)
Lemma generated_pieces_fresh TAB_SIZE_RATIO random getContext toDataURL img
    gridSize maxContainerWidth maxContainerHeight res :
  generatePuzzle TAB_SIZE_RATIO random getContext toDataURL img gridSize
                 maxContainerWidth maxContainerHeight = Resolved res ->
  forall i p, Result.pieces res !! i = Some p ->
    PuzzlePiece.id p = i /\ PuzzlePiece.isLocked p = false.
Proof.
  destruct img as [[imgW imgH] |]; [| done]. cbn [generatePuzzle].
  intros (Hrows & Hcols & g & st & Hg & Hfilled & Hrun & Hres & ->)%onload_resolved.
  cbn [Result.pieces]. intros i p Hp.
  assert (Hrows' : (0 <= rows (layout TAB_SIZE_RATIO imgW imgH gridSize
                                      maxContainerWidth maxContainerHeight))%Z) by lia.
  destruct (rasterize_resolved getContext toDataURL _ g Hrows' Hcols Hfilled
              st Hrun Hres) as (_ & _ & Hpieces).
  destruct (Hpieces i p Hp) as (Hid & _ & _ & _ & s & _ & Heq).
  split; [done |]. by rewrite Heq.
Qed.

(** [initGame] installs a board on which the invariant of play holds,
    whatever piece was being dragged before. *)
Lemma initGame_gameInv TAB_SIZE_RATIO random getContext toDataURL img
    gridSize maxContainerWidth maxContainerHeight (scatterRandom : nat -> R) s :
  gameInv s ->
  gameInv (initGame scatterRandom
             (generatePuzzle TAB_SIZE_RATIO random getContext toDataURL img gridSize
                             maxContainerWidth maxContainerHeight) s).
Proof.
  intros Hinv. unfold initGame.
  destruct (generatePuzzle _ _ _ _ _ _ _ _) as [res | |] eqn:Hgen;
    [| by apply (gameInv_same_pieces s); auto ..].
  pose proof (generated_pieces_fresh _ _ _ _ _ _ _ _ _ Hgen) as Hfresh.
  match goal with |- gameInv (checkCompletion ?st) =>
    destruct (checkCompletion_keeps st) as (Hps & Hd & _) end.
  cbn [pieces draggedPieceId setPieces] in Hps, Hd.
  assert (Hlook : forall i p',
            scatter scatterRandom (Result.puzzleWidth res) (Result.puzzleHeight res)
                    (Result.pieces res) !! i = Some p' ->
            PuzzlePiece.id p' = i /\ PuzzlePiece.isLocked p' = false).
  { intros i p'. unfold scatter. rewrite list_lookup_imap.
    destruct (Result.pieces res !! i) as [p |] eqn:Hp; [| done].
    cbn [fmap option_fmap option_map]. intros [= <-].
    cbn [PuzzlePiece.with_currentPos PuzzlePiece.id PuzzlePiece.isLocked].
    by apply Hfresh. }
  unfold gameInv. rewrite Hps. split_and!.
  - apply NoDup_ids_by_index. intros i p' Hp'. by apply Hlook.
  - intros p' [i Hp']%list_elem_of_In%list_elem_of_lookup Hlocked.
    destruct (Hlook i p' Hp'). congruence.
  - intros p' [i Hp']%list_elem_of_In%list_elem_of_lookup _.
    by destruct (Hlook i p' Hp').
Qed.

(** The state the component starts in. *)
Definition initialState : State :=
  Game.mk [] None (Point.mk 0 0) false false None.

Lemma initialState_gameInv : gameInv initialState.
Proof.
  unfold gameInv, initialState. cbn [pieces map]. split_and!.
  - apply NoDup_nil_2.
  - intros p [].
  - intros p [].
Qed.

(** The states of the component: the initial one, and those that a
    pointer event or a (re)generation of the puzzle leads to. *)
Inductive reachable (SNAP_TOLERANCE : R) : State -> Prop :=
| reachable_initial : reachable SNAP_TOLERANCE initialState
| reachable_handle e s :
    reachable SNAP_TOLERANCE s -> reachable SNAP_TOLERANCE (handle SNAP_TOLERANCE e s)
| reachable_initGame TAB_SIZE_RATIO random getContext toDataURL img gridSize
    maxContainerWidth maxContainerHeight scatterRandom s :
    reachable SNAP_TOLERANCE s ->
    reachable SNAP_TOLERANCE
      (initGame scatterRandom
         (generatePuzzle TAB_SIZE_RATIO random getContext toDataURL img gridSize
                         maxContainerWidth maxContainerHeight) s).

(** The invariant of play holds in every state of the component. *)
Lemma reachable_gameInv SNAP_TOLERANCE s : reachable SNAP_TOLERANCE s -> gameInv s.
Proof.
  induction 1 as [| e s _ IH | ? ? ? ? ? ? ? ? ? s _ IH].
  - apply initialState_gameInv.
  - by apply handle_gameInv.
  - by apply initGame_gameInv.
Qed.
End InitGameFacts.

(** * Further properties of the generator *)

(** ** Grid and piece sizes *)

Section LayoutShape.
Local Open Scope R_scope.

Variable TAB_SIZE_RATIO : R.
Variables imgW imgH : R.
Variable gridSize : Z.
Variables maxContainerWidth maxContainerHeight : R.

Hypothesis imgW_pos : 0 < imgW.
Hypothesis imgH_pos : 0 < imgH.
Hypothesis gridSize_pos : (1 <= gridSize)%Z.

Let L := layout TAB_SIZE_RATIO imgW imgH gridSize
                maxContainerWidth maxContainerHeight.


End LayoutShape.



(** ** How the promise ends *)

(** The promise is rejected exactly when the image fails to load: once
    the image has loaded, nothing in the handler calls [reject]. *)
Theorem rejected_iff_image_fails (TAB_SIZE_RATIO : R) (random : nat -> R)
    (getContext : nat -> nat -> bool) (toDataURL : nat -> nat -> string)
    (img : option (R * R)) (gridSize : Z)
    (maxContainerWidth maxContainerHeight : R) :
  generatePuzzle TAB_SIZE_RATIO random getContext toDataURL img gridSize
                 maxContainerWidth maxContainerHeight = Rejected
  <-> img = None.
Proof.
  split; [| by intros ->].
  destruct img as [[imgW imgH] |]; [| done].
  cbn [generatePuzzle]. unfold onload.
  destruct (validArrayLength _ && _); [| done].
  destruct (generateShapes _ _ _); [| done].
  destruct (rasterize _ _ _ _) as [st |]; [| done].
  by destruct (resolved st).
Qed.



(** * Further properties of the piece path *)

Section PathShape.
Local Open Scope R_scope.

(** The neighbour's call of [drawTab], along the same edge in the other
    direction and with the negated edge value, passes to its two
    [bezierCurveTo] the six points of the first call in the reverse order,
    and ends its [lineTo] at the other corner.  This is about the
    arguments of the calls only.  The curves drawn are not the same: a
    [bezierCurveTo] starts at the current point, which is the corner for
    the first curve of either call ([shared_edge_cuts_differ]). *)
Theorem drawTab_reversed_control_points (x1 y1 x2 y2 dir size : R) :
  exists a1 a2 a3 b1 b2 b3 : Point.t,
    drawTab x1 y1 x2 y2 dir size
    = [BezierCurveTo a1 a2 a3; BezierCurveTo b1 b2 b3; LineTo (Point.mk x2 y2)]
    /\ drawTab x2 y2 x1 y1 (- dir) size
       = [BezierCurveTo b3 b2 b1; BezierCurveTo a3 a2 a1; LineTo (Point.mk x1 y1)].
Proof.
  unfold drawTab. cbv zeta.
  replace ((x1 - x2) * (x1 - x2) + (y1 - y2) * (y1 - y2))
    with ((x2 - x1) * (x2 - x1) + (y2 - y1) * (y2 - y1)) by ring.
  set (len := sqrt _).
  do 6 eexists. split; [reflexivity |].
  repeat match goal with
         | |- _ :: _ = _ :: _ => f_equal
         | |- BezierCurveTo _ _ _ = BezierCurveTo _ _ _ => f_equal
         | |- Point.mk _ _ = Point.mk _ _ => f_equal; lra
         end.
Qed.

End PathShape.

(** * Further properties of the interaction layer *)

Section GameMore.
Local Open Scope R_scope.
Import Game.

Variable SNAP_TOLERANCE : R.

Implicit Types (s : State) (p q : PuzzlePiece.t) (ps : list PuzzlePiece.t).

Lemma maxZ_ge ps q : In q ps -> (PuzzlePiece.zIndex q <= maxZ ps)%Z.
Proof.
  unfold maxZ. induction ps as [| p ps IH]; [done |].
  intros [-> | Hin]; cbn [map fold_right]; [lia |].
  specialize (IH Hin). lia.
Qed.

Lemma checkCompletion_completed s :
  completed (checkCompletion s) = true ->
  completed s = true
  \/ (pieces s <> [] /\ forall q, In q (pieces s) -> PuzzlePiece.isLocked q = true).
Proof.
  unfold checkCompletion.
  destruct ((0 <? length (pieces s))%nat && forallb PuzzlePiece.isLocked (pieces s))
    eqn:Hall; [| by left].
  intros _. right. apply andb_true_iff in Hall as [Hlen Hlocked].
  split.
  - intros Hnil. rewrite Hnil in Hlen. discriminate.
  - intros q Hq. rewrite forallb_forall in Hlocked. by apply Hlocked.
Qed.

Lemma checkCompletion_keeps_completed s :
  completed s = true -> completed (checkCompletion s) = true.
Proof. unfold checkCompletion. by destruct (_ && _). Qed.

(** Bring to front: after a pointer-down on a piece that is not locked,
    that piece is the dragged one and every piece with another id lies
    strictly below it. *)
Theorem pressed_piece_comes_to_front pieceId clientX clientY boardLeft boardTop
    now s piece :
  findPiece pieceId (pieces s) = Some piece ->
  PuzzlePiece.isLocked piece = false ->
  let s' := handlePointerDown pieceId clientX clientY boardLeft boardTop now s in
  draggedPieceId s' = Some pieceId
  /\ forall p' q', In p' (pieces s') -> In q' (pieces s') ->
       PuzzlePiece.id p' = pieceId -> PuzzlePiece.id q' <> pieceId ->
       (PuzzlePiece.zIndex q' < PuzzlePiece.zIndex p')%Z.
Proof.
  intros Hfind Hfree.
  pose proof (handlePointerDown_effect pieceId clientX clientY boardLeft boardTop
                now s) as Heff.
  cbv zeta in *. rewrite Hfind, Hfree in Heff. destruct Heff as [Hps Hd].
  split; [done |]. rewrite Hps.
  intros p' q' (p & Hp & ->)%updatePiece_In (q & Hq & ->)%updatePiece_In.
  destruct (Nat.eqb (PuzzlePiece.id p) pieceId) eqn:Ep;
    destruct (Nat.eqb (PuzzlePiece.id q) pieceId) eqn:Eq;
    cbn [PuzzlePiece.with_zIndex PuzzlePiece.id PuzzlePiece.zIndex];
    intros Hidp Hidq.
  - apply Nat.eqb_eq in Eq. done.
  - pose proof (maxZ_ge _ q Hq). lia.
  - apply Nat.eqb_neq in Ep. done.
  - apply Nat.eqb_neq in Ep. done.
Qed.

Lemma pressed_piece_comes_to_front_example :
  Game.draggedPieceId
    (handlePointerDown 1 310 50 0 0 1000
       (Game.setDraggedPieceId None (boardAt 300 40))) = Some 1%nat.
Proof.
  apply (pressed_piece_comes_to_front 1 310 50 0 0 1000
           (Game.setDraggedPieceId None (boardAt 300 40))
           (boardPiece 1 (Point.mk 300 40) (Point.mk 80 (-20)) false));
    reflexivity.
Defined.

(** [completed] is set by a pointer event only when, after the event, the
    board is not empty and every piece is locked; and no pointer event
    resets it. *)
Theorem completion_needs_every_piece_locked (e : Event) s :
  let s' := handle SNAP_TOLERANCE e s in
  (completed s = true -> completed s' = true)
  /\ (completed s = false -> completed s' = true ->
      pieces s' <> []
      /\ forall q, In q (pieces s') -> PuzzlePiece.isLocked q = true).
Proof.
  assert (Hcheck : forall st,
            completed st = completed s ->
            (completed s = true -> completed (checkCompletion st) = true)
            /\ (completed s = false -> completed (checkCompletion st) = true ->
                pieces (checkCompletion st) <> []
                /\ forall q, In q (pieces (checkCompletion st)) ->
                     PuzzlePiece.isLocked q = true)).
  { intros st Hsame. split.
    - intros Hyes. apply checkCompletion_keeps_completed. congruence.
    - intros Hno Hyes. destruct (checkCompletion_keeps st) as (-> & _).
      apply checkCompletion_completed in Hyes as [Hyes | Hall]; [congruence | done]. }
  assert (Htimer : forall now, completed (startTimer now s) = completed s).
  { intros now. unfold startTimer. by destruct (_ && _). }
  cbv zeta. destruct e as [pieceId cx cy bl bt now | cx cy rect |]; cbn [handle].
  - unfold handlePointerDown.
    destruct (findPiece pieceId (pieces s)) as [piece |];
      [| rewrite Htimer; split; [done | congruence]].
    destruct (PuzzlePiece.isLocked piece);
      [rewrite Htimer; split; [done | congruence] |].
    apply Hcheck. cbn [completed setDragOffset setDraggedPieceId setPieces].
    apply Htimer.
  - unfold handlePointerMove.
    destruct (draggedPieceId s); [| split; [done | congruence]].
    destruct rect as [[bl bt] |]; [| split; [done | congruence]].
    by apply Hcheck.
  - unfold handlePointerUp.
    destruct (draggedPieceId s); [| split; [done | congruence]].
    destruct (findPiece _ _); [| split; [done | cbn; congruence]].
    destruct (Rlt_dec _ _); [| split; [done | cbn; congruence]].
    match goal with |- context [checkCompletion ?st] =>
      destruct (Hcheck st eq_refl) as [Hkeep Hset] end.
    split; [exact Hkeep | exact Hset].
Qed.

(** What the generator produced is never touched by play: after any
    pointer event the list has the same length, and the piece at each
    index keeps its id, grid cell, correct position, shape, image and
    size. *)
Theorem pointer_events_keep_generated_fields (e : Event) s i p :
  pieces s !! i = Some p ->
  length (pieces (handle SNAP_TOLERANCE e s)) = length (pieces s)
  /\ exists p',
       pieces (handle SNAP_TOLERANCE e s) !! i = Some p'
       /\ PuzzlePiece.id p' = PuzzlePiece.id p
       /\ PuzzlePiece.row p' = PuzzlePiece.row p
       /\ PuzzlePiece.col p' = PuzzlePiece.col p
       /\ PuzzlePiece.correctPos p' = PuzzlePiece.correctPos p
       /\ PuzzlePiece.shape p' = PuzzlePiece.shape p
       /\ PuzzlePiece.imgUrl p' = PuzzlePiece.imgUrl p
       /\ PuzzlePiece.width p' = PuzzlePiece.width p
       /\ PuzzlePiece.height p' = PuzzlePiece.height p.
Proof.
  intros Hp.
  assert (Hsame : forall ps', ps' = pieces s ->
            length ps' = length (pieces s)
            /\ exists p', ps' !! i = Some p'
                 /\ PuzzlePiece.id p' = PuzzlePiece.id p
                 /\ PuzzlePiece.row p' = PuzzlePiece.row p
                 /\ PuzzlePiece.col p' = PuzzlePiece.col p
                 /\ PuzzlePiece.correctPos p' = PuzzlePiece.correctPos p
                 /\ PuzzlePiece.shape p' = PuzzlePiece.shape p
                 /\ PuzzlePiece.imgUrl p' = PuzzlePiece.imgUrl p
                 /\ PuzzlePiece.width p' = PuzzlePiece.width p
                 /\ PuzzlePiece.height p' = PuzzlePiece.height p).
  { intros ps' ->. split; [done |]. exists p. by split_and!. }
  assert (Hupd : forall ps' d f,
            ps' = updatePiece d f (pieces s) ->
            (forall q, f q = PuzzlePiece.with_zIndex (PuzzlePiece.zIndex (f q))
                               (PuzzlePiece.with_currentPos (PuzzlePiece.currentPos (f q)) q)
                       \/ f q = PuzzlePiece.snapped q) ->
            length ps' = length (pieces s)
            /\ exists p', ps' !! i = Some p'
                 /\ PuzzlePiece.id p' = PuzzlePiece.id p
                 /\ PuzzlePiece.row p' = PuzzlePiece.row p
                 /\ PuzzlePiece.col p' = PuzzlePiece.col p
                 /\ PuzzlePiece.correctPos p' = PuzzlePiece.correctPos p
                 /\ PuzzlePiece.shape p' = PuzzlePiece.shape p
                 /\ PuzzlePiece.imgUrl p' = PuzzlePiece.imgUrl p
                 /\ PuzzlePiece.width p' = PuzzlePiece.width p
                 /\ PuzzlePiece.height p' = PuzzlePiece.height p).
  { intros ps' d f -> Hf. split; [unfold updatePiece; apply length_map |].
    rewrite updatePiece_lookup, Hp. cbn [fmap option_fmap option_map].
    eexists. split; [reflexivity |].
    destruct (Nat.eqb (PuzzlePiece.id p) d); [| by split_and!].
    destruct (Hf p) as [-> | ->]; by split_and!. }
  destruct e as [pieceId cx cy bl bt now | cx cy rect |]; cbn [handle].
  - pose proof (handlePointerDown_effect pieceId cx cy bl bt now s) as Heff.
    cbv zeta in Heff.
    destruct (findPiece pieceId (pieces s)) as [piece |];
      [| destruct Heff as (Hps & _); by apply Hsame].
    destruct (PuzzlePiece.isLocked piece);
      [destruct Heff as (Hps & _); by apply Hsame |].
    destruct Heff as [Hps _]. apply (Hupd _ _ _ Hps). intros q. by left.
  - pose proof (handlePointerMove_effect cx cy rect s) as [_ Hps].
    destruct (draggedPieceId s); [| by apply Hsame].
    destruct rect as [[bl bt] |]; [| by apply Hsame].
    apply (Hupd _ _ _ Hps). intros q. by left.
  - pose proof (handlePointerUp_effect SNAP_TOLERANCE s) as Heff. cbv zeta in Heff.
    destruct (draggedPieceId s); [| apply Hsame; by rewrite Heff].
    destruct Heff as [_ Hps].
    destruct (findPiece _ _); [| by apply Hsame].
    destruct (Rlt_dec _ _); [| by apply Hsame].
    apply (Hupd _ _ _ Hps). intros q. by right.
Qed.

End GameMore.

Lemma pointer_events_keep_generated_fields_example :
  length (Game.pieces (handle 20 Game.PointerUp (boardAt 83 (-16)))) = 2%nat.
Proof.
  apply (pointer_events_keep_generated_fields 20 Game.PointerUp (boardAt 83 (-16))
           1 (boardPiece 1 (Point.mk 83 (-16)) (Point.mk 80 (-20)) false)).
  reflexivity.
Defined.

(** ** Starting a game *)

(** [initGame] always leaves the game not completed, the timer stopped and
    the start time cleared, and keeps the dragged id.  When the promise of
    [generatePuzzle] resolves, the board holds as many pieces as the
    result, none of them locked, the piece at index [i] having id [i];
    when it is rejected or stays pending, the pieces stay as they were. *)
Theorem initGame_starts_afresh (TAB_SIZE_RATIO : R) (random : nat -> R)
    (getContext : nat -> nat -> bool) (toDataURL : nat -> nat -> string)
    (img : option (R * R)) (gridSize : Z)
    (maxContainerWidth maxContainerHeight : R)
    (scatterRandom : nat -> R) (s : Game.State) :
  let out := generatePuzzle TAB_SIZE_RATIO random getContext toDataURL img gridSize
                            maxContainerWidth maxContainerHeight in
  let s' := initGame scatterRandom out s in
  Game.completed s' = false /\ Game.timerActive s' = false
  /\ Game.startTime s' = None
  /\ Game.draggedPieceId s' = Game.draggedPieceId s
  /\ match out with
     | Resolved res =>
         length (Game.pieces s') = length (Result.pieces res)
         /\ forall i q, Game.pieces s' !! i = Some q ->
              PuzzlePiece.id q = i /\ PuzzlePiece.isLocked q = false
     | _ => Game.pieces s' = Game.pieces s
     end.
Proof.
  cbv zeta. unfold initGame.
  destruct (generatePuzzle _ _ _ _ _ _ _ _) as [res | |] eqn:Hgen;
    [| by split_and! ..].
  pose proof (generated_pieces_fresh _ _ _ _ _ _ _ _ _ Hgen) as Hfresh.
  assert (Hsome : exists p, In p (Result.pieces res)).
  { destruct img as [[imgW imgH] |]; [| done].
    by apply onload_resolved_nonempty in Hgen. }
  set (ps := scatter scatterRandom (Result.puzzleWidth res) (Result.puzzleHeight res)
                     (Result.pieces res)).
  assert (Hlen : length ps = length (Result.pieces res)) by apply length_imap.
  assert (Hlook : forall i q, ps !! i = Some q ->
                    PuzzlePiece.id q = i /\ PuzzlePiece.isLocked q = false).
  { intros i q. unfold ps, scatter. rewrite list_lookup_imap.
    destruct (Result.pieces res !! i) as [p |] eqn:Hp; [| done].
    cbn [fmap option_fmap option_map]. intros [= <-].
    cbn [PuzzlePiece.with_currentPos PuzzlePiece.id PuzzlePiece.isLocked].
    by apply Hfresh. }
  unfold checkCompletion. cbn [Game.pieces Game.setPieces]. fold ps.
  assert (Hopen : forallb PuzzlePiece.isLocked ps = false).
  { destruct ps as [| q qs] eqn:Hps.
    - destruct Hsome as [p Hp]. destruct (Result.pieces res); [destruct Hp | done].
    - destruct (Hlook 0%nat q eq_refl) as [_ Hq]. cbn [forallb]. by rewrite Hq. }
  rewrite Hopen, andb_false_r.
  cbn [Game.completed Game.timerActive Game.startTime Game.draggedPieceId
       Game.pieces Game.setPieces].
  by split_and!.
Qed.

(** * The random source of the shape assigner *)

Section RandomCalls.
Variable random : nat -> R.
Variables rows cols : nat.

(** One cell makes one call of [Math.random()] for its right edge unless
    it is in the last column, and one for its bottom edge unless it is in
    the last row. *)
Lemma assignCell_calls r c st st' :
  assignCell random rows cols r c st = Some st' ->
  randomCalls st'
  = randomCalls st
    + (if (Z.of_nat c <? Z.of_nat cols - 1)%Z then 1 else 0)
    + (if (Z.of_nat r <? Z.of_nat rows - 1)%Z then 1 else 0).
Proof.
  unfold assignCell. intros Hrun.
  destruct (setShape (shapes st) r c flatShape) as [g0 |]; [| done].
  cbn [mbind option_bind] in Hrun.
  match type of Hrun with
  | context [mbind _ ?m] => destruct m as [g1 |]; [| done]
  end.
  cbn [mbind option_bind] in Hrun.
  match type of Hrun with
  | context [mbind _ ?m] => destruct m as [g2 |]; [| done]
  end.
  cbn [mbind option_bind] in Hrun.
  destruct (Z.of_nat c <? Z.of_nat cols - 1)%Z.
  - destruct (updShape g2 r c _) as [g3 |]; [| done].
    cbn [mbind option_bind shapes randomCalls] in Hrun.
    destruct (Z.of_nat r <? Z.of_nat rows - 1)%Z.
    + destruct (updShape g3 r c _) as [g4 |]; [| done].
      cbn [mbind option_bind] in Hrun. injection Hrun as <-. cbn [randomCalls]. lia.
    + injection Hrun as <-. cbn [randomCalls]. lia.
  - cbn [mbind option_bind shapes randomCalls] in Hrun.
    destruct (Z.of_nat r <? Z.of_nat rows - 1)%Z.
    + destruct (updShape g2 r c _) as [g4 |]; [| done].
      cbn [mbind option_bind] in Hrun. injection Hrun as <-. cbn [randomCalls]. lia.
    + injection Hrun as <-. cbn [randomCalls]. lia.
Qed.

Lemma before_last (i n : nat) :
  (Z.of_nat i <? Z.of_nat n - 1)%Z = (i <? n - 1)%nat.
Proof.
  destruct (i <? n - 1)%nat eqn:E.
  - apply Nat.ltb_lt in E. apply Z.ltb_lt. lia.
  - apply Nat.ltb_ge in E. apply Z.ltb_ge. lia.
Qed.

Lemma assignRow_calls r st :
  r < rows -> shapesInv rows cols r 0 st ->
  exists st', assignRow random rows cols r st = Some st'
    /\ shapesInv rows cols (S r) 0 st'
    /\ randomCalls st'
       = randomCalls st + (cols - 1) + (if (r <? rows - 1)%nat then cols else 0).
Proof.
  intros Hr Hinv. unfold assignRow.
  destruct (forLoop_rule (assignCell random rows cols r)
              (fun c st' =>
                 shapesInv rows cols r c st'
                 /\ randomCalls st'
                    = randomCalls st + Nat.min c (cols - 1)
                      + (if (r <? rows - 1)%nat then c else 0))
              cols 0 st) as (st' & Hrun & Hend & Hcalls).
  { split; [done |]. destruct (r <? rows - 1)%nat; simpl; lia. }
  { intros c s [_ Hc] [Hs Hk].
    destruct (assignCell_inv random rows cols r c s Hr Hc Hs) as (s' & Hstep & Hs').
    exists s'. split; [done |]. split; [done |].
    rewrite (assignCell_calls r c s s' Hstep), Hk, !before_last.
    destruct (c <? cols - 1)%nat eqn:Ec; destruct (r <? rows - 1)%nat;
      (apply Nat.ltb_lt in Ec || apply Nat.ltb_ge in Ec); lia. }
  exists st'. split; [done |]. split.
  - destruct Hend as [Hg Hdone]. split; [done |].
    intros r' c' Hr' Hc' Hearlier. apply Hdone; [done | done |].
    unfold earlier in *. simpl. lia.
  - rewrite Hcalls. simpl. destruct (r <? rows - 1)%nat; lia.
Qed.

(** [Math.random()] is called once for every interior edge of the grid
    and never for an edge on the border: when the shape loops end, they
    have made [rows * (cols - 1) + (rows - 1) * cols] calls. *)
Theorem shape_loops_random_calls :
  exists st,
    forLoop (assignRow random rows cols) 0 rows
            (mkShapeState (emptyGrid rows cols) 0) = Some st
    /\ generateShapes random rows cols = Some (shapes st)
    /\ randomCalls st = rows * (cols - 1) + (rows - 1) * cols.
Proof.
  destruct (forLoop_rule (assignRow random rows cols)
              (fun r st =>
                 shapesInv rows cols r 0 st
                 /\ randomCalls st = r * (cols - 1) + Nat.min r (rows - 1) * cols)
              rows 0 (mkShapeState (emptyGrid rows cols) 0))
    as (st & Hrun & _ & Hcalls).
  { split; [| simpl; lia]. split; [apply emptyGrid_dims |].
    unfold earlier. intros; lia. }
  { intros r s [_ Hr] [Hs Hk].
    destruct (assignRow_calls r s Hr Hs) as (s' & Hstep & Hs' & Hk').
    exists s'. split; [done |]. split; [done |]. rewrite Hk', Hk.
    destruct (r <? rows - 1)%nat eqn:Er;
      (apply Nat.ltb_lt in Er || apply Nat.ltb_ge in Er); nia. }
  exists st. split; [done |]. split.
  - unfold generateShapes. by rewrite Hrun.
  - rewrite Hcalls. simpl. nia.
Qed.
End RandomCalls.

(** * The clock display *)

From Stdlib Require DecimalString DecimalNat.
From Stdlib Require Import Ascii.

(** [n.toString()] for a non-negative integer: its decimal digits. *)
Definition toString (n : nat) : string :=
  DecimalString.NilEmpty.string_of_uint (Nat.to_uint n).

Fixpoint fillString (n : nat) (fill : ascii) : string :=
  match n with
  | O => EmptyString
  | S n' => String fill (fillString n' fill)
  end.

(** [s.padStart(targetLength, fill)] for a fill string of one character:
    a string that is long enough is returned as it is. *)
Definition padStart (targetLength : nat) (fill : ascii) (s : string) : string :=
  String.append (fillString (targetLength - String.length s) fill) s.

(** Lines 172-176 of the component, for a whole number of seconds. *)
Definition formatTime (seconds : nat) : string :=
  let mins := seconds / 60 in
  let secs := seconds mod 60 in
  String.append (padStart 2 "0" (toString mins))
    (String ":" (padStart 2 "0" (toString secs))).

Example formatTime_75 : formatTime 75 = "01:15"%string.
Proof. reflexivity. Qed.

Example formatTime_100_minutes : formatTime (100 * 60) = "100:00"%string.
Proof. reflexivity. Qed.

Section ClockFacts.

(** Reading the display back: the text before the first colon and the
    text after it. *)
Fixpoint splitAtColon (s : string) : option (string * string) :=
  match s with
  | EmptyString => None
  | String c rest =>
      if Ascii.eqb c ":" then Some (EmptyString, rest)
      else match splitAtColon rest with
           | Some (before, after) => Some (String c before, after)
           | None => None
           end
  end.

Fixpoint hasColon (s : string) : bool :=
  match s with
  | EmptyString => false
  | String c rest => Ascii.eqb c ":" || hasColon rest
  end.

Lemma splitAtColon_append (before after : string) :
  hasColon before = false ->
  splitAtColon (String.append before (String ":" after)) = Some (before, after).
Proof.
  induction before as [| c before IH]; intros Hno; [done |].
  cbn [hasColon] in Hno. apply orb_false_elim in Hno as [Hc Hrest].
  cbn [String.append splitAtColon]. rewrite Hc, (IH Hrest). done.
Qed.

Lemma digits_no_colon (d : Decimal.uint) :
  hasColon (DecimalString.NilEmpty.string_of_uint d) = false.
Proof. induction d; cbn; done. Qed.

Lemma padStart_no_colon (n : nat) :
  hasColon (padStart 2 "0" (toString n)) = false.
Proof.
  unfold padStart, toString.
  pose proof (digits_no_colon (Nat.to_uint n)) as Hno.
  destruct (2 - _) as [| [| [| k]]] eqn:Hfill;
    cbn [fillString String.append hasColon Ascii.eqb Bool.eqb orb]; try done.
  lia.
Qed.

(** The padded digits read back as the number. *)
Lemma padStart_reads_back (n : nat) :
  option_map Nat.of_uint
    (DecimalString.NilEmpty.uint_of_string (padStart 2 "0" (toString n)))
  = Some n.
Proof.
  unfold padStart, toString.
  pose proof (DecimalString.NilEmpty.usu (Nat.to_uint n)) as Husu.
  pose proof (DecimalNat.Unsigned.of_to n) as Hof.
  destruct (2 - _) as [| [| [| k]]] eqn:Hfill;
    cbn [fillString String.append DecimalString.NilEmpty.uint_of_string];
    [| | | lia]; rewrite Husu; cbn; unfold Nat.of_uint in Hof |- *; by rewrite Hof.
Qed.

(** The display tells the elapsed time: two numbers of seconds that are
    shown as the same text are equal. *)
Theorem formatTime_injective (a b : nat) :
  formatTime a = formatTime b -> a = b.
Proof.
  intros Hsame. apply (f_equal splitAtColon) in Hsame. unfold formatTime in Hsame.
  cbv zeta in Hsame.
  rewrite !splitAtColon_append in Hsame by apply padStart_no_colon.
  injection Hsame as Hmins Hsecs.
  apply (f_equal (fun s => option_map Nat.of_uint
                             (DecimalString.NilEmpty.uint_of_string s))) in Hmins, Hsecs.
  rewrite !padStart_reads_back in Hmins, Hsecs.
  assert (Hm : a / 60 = b / 60) by (injection Hmins as Heq; exact Heq).
  assert (Hs : a mod 60 = b mod 60) by (injection Hsecs as Heq; exact Heq).
  rewrite (Nat.div_mod_eq a 60), (Nat.div_mod_eq b 60). lia.
Qed.

Lemma formatTime_injective_example : 75 = 75.
Proof. apply (formatTime_injective 75 75). reflexivity. Defined.
End ClockFacts.

(** * The states of the component *)

(** In every state that the component reaches from its initial state, by
    pointer events and by (re)generations of the puzzle whatever their
    outcome, the pieces have distinct ids, every locked piece stands on
    its correct position, and the piece being dragged is not locked. *)
Theorem reachable_states_are_sound (SNAP_TOLERANCE : R) (s : Game.State) :
  reachable SNAP_TOLERANCE s ->
  NoDup (map PuzzlePiece.id (Game.pieces s))
  /\ (forall p, In p (Game.pieces s) -> PuzzlePiece.isLocked p = true ->
        PuzzlePiece.currentPos p = PuzzlePiece.correctPos p)
  /\ (forall p, In p (Game.pieces s) ->
        Game.draggedPieceId s = Some (PuzzlePiece.id p) ->
        PuzzlePiece.isLocked p = false).
Proof.
  intros Hreach. change (gameInv s).
  induction Hreach as [| e s _ IH | ? ? ? ? ? ? ? ? ? s _ IH].
  - apply initialState_gameInv.
  - by apply handle_gameInv.
  - by apply initGame_gameInv.
Qed.

(** The state after a 3 x 3 puzzle has been generated with every context
    at hand, and a piece has been pressed. *)
Lemma reachable_states_are_sound_example :
  NoDup
    (map PuzzlePiece.id
       (Game.pieces
          (handle 20 (Game.PointerDown 4 150 150 0 0 1000)
             (initGame (fun _ => (1 / 2)%R)
                (generatePuzzle (2 / 10) (fun _ => 0%R) (fun _ _ => true)
                   (fun _ _ => "data:,"%string) (Some (300, 300)%R) 3 300 300)
                initialState)))).
Proof.
  apply (reachable_states_are_sound 20).
  apply reachable_handle. apply reachable_initGame. apply reachable_initial.
Defined.

Section DisplayInvariants.
Import Game.

Variable SNAP_TOLERANCE : R.

Implicit Types (s : State) (p q : PuzzlePiece.t) (ps : list PuzzlePiece.t).

(** Locked pieces are at z-index 0 and the others at 1 or above. *)
Definition layered s : Prop :=
  forall p, In p (pieces s) ->
    if PuzzlePiece.isLocked p then PuzzlePiece.zIndex p = 0%Z
    else (1 <= PuzzlePiece.zIndex p)%Z.

Lemma maxZ_ge_1 ps : (1 <= maxZ ps)%Z.
Proof.
  unfold maxZ. induction ps as [| p ps IH]; cbn [map fold_right]; lia.
Qed.

Lemma layered_same_pieces s s' : layered s -> pieces s' = pieces s -> layered s'.
Proof. unfold layered. by intros Hs ->. Qed.

Lemma layered_update s s' d f :
  layered s -> pieces s' = updatePiece d f (pieces s) ->
  (forall p, In p (pieces s) -> PuzzlePiece.id p = d ->
     if PuzzlePiece.isLocked (f p) then PuzzlePiece.zIndex (f p) = 0%Z
     else (1 <= PuzzlePiece.zIndex (f p))%Z) ->
  layered s'.
Proof.
  intros Hs Hps Hf. unfold layered. rewrite Hps.
  intros p' (p & Hin & ->)%updatePiece_In.
  destruct (Nat.eqb (PuzzlePiece.id p) d) eqn:E.
  - apply Nat.eqb_eq in E. by apply Hf.
  - by apply Hs.
Qed.

Lemma handle_layered e s :
  gameInv s -> layered s -> layered (handle SNAP_TOLERANCE e s).
Proof.
  intros (Hnodup & _ & _) Hs.
  destruct e as [pieceId cx cy bl bt now | cx cy rect |]; cbn [handle].
  - pose proof (handlePointerDown_effect pieceId cx cy bl bt now s) as Heff.
    cbv zeta in Heff.
    destruct (findPiece pieceId (pieces s)) as [piece |] eqn:Hfind;
      [| destruct Heff as (Hps & _); by apply (layered_same_pieces s)].
    destruct (PuzzlePiece.isLocked piece) eqn:Hlock;
      [destruct Heff as (Hps & _); by apply (layered_same_pieces s) |].
    destruct Heff as [Hps _]. apply (layered_update s _ _ _ Hs Hps).
    intros p Hin Hid.
    rewrite (findPiece_unique pieceId _ p Hnodup Hin Hid) in Hfind.
    injection Hfind as ->.
    cbn [PuzzlePiece.with_zIndex PuzzlePiece.isLocked PuzzlePiece.zIndex].
    rewrite Hlock. pose proof (maxZ_ge_1 (pieces s)). lia.
  - pose proof (handlePointerMove_effect cx cy rect s) as [_ Hps].
    destruct (draggedPieceId s); [| by apply (layered_same_pieces s)].
    destruct rect as [[bl bt] |]; [| by apply (layered_same_pieces s)].
    apply (layered_update s _ _ _ Hs Hps). intros p Hin _.
    cbn [PuzzlePiece.with_currentPos PuzzlePiece.isLocked PuzzlePiece.zIndex].
    by apply Hs.
  - pose proof (handlePointerUp_effect SNAP_TOLERANCE s) as Heff. cbv zeta in Heff.
    destruct (draggedPieceId s); [| by rewrite Heff].
    destruct Heff as [_ Hps].
    destruct (findPiece _ _); [| by apply (layered_same_pieces s)].
    destruct (Rlt_dec _ _); [| by apply (layered_same_pieces s)].
    apply (layered_update s _ _ _ Hs Hps). by intros p _ _.
Qed.

(** The pieces of a resolved result are not locked and at z-index 1. *)
Lemma generated_pieces_layer TAB_SIZE_RATIO random getContext toDataURL img
    gridSize maxContainerWidth maxContainerHeight res :
  generatePuzzle TAB_SIZE_RATIO random getContext toDataURL img gridSize
                 maxContainerWidth maxContainerHeight = Resolved res ->
  forall p, In p (Result.pieces res) ->
    PuzzlePiece.isLocked p = false /\ PuzzlePiece.zIndex p = 1%Z.
Proof.
  destruct img as [[imgW imgH] |]; [| done]. cbn [generatePuzzle].
  intros (Hrows & Hcols & g & st & Hg & Hfilled & Hrun & Hres & ->)%onload_resolved.
  cbn [Result.pieces]. intros p [i Hp]%list_elem_of_In%list_elem_of_lookup.
  assert (Hrows' : (0 <= rows (layout TAB_SIZE_RATIO imgW imgH gridSize
                                      maxContainerWidth maxContainerHeight))%Z) by lia.
  destruct (rasterize_resolved getContext toDataURL _ g Hrows' Hcols Hfilled
              st Hrun Hres) as (_ & _ & Hpieces).
  destruct (Hpieces i p Hp) as (_ & _ & _ & _ & s & _ & Heq).
  by rewrite Heq.
Qed.

Lemma initGame_layered TAB_SIZE_RATIO random getContext toDataURL img
    gridSize maxContainerWidth maxContainerHeight (scatterRandom : nat -> R) s :
  layered s ->
  layered (initGame scatterRandom
             (generatePuzzle TAB_SIZE_RATIO random getContext toDataURL img gridSize
                             maxContainerWidth maxContainerHeight) s).
Proof.
  intros Hs. unfold initGame.
  destruct (generatePuzzle _ _ _ _ _ _ _ _) as [res | |] eqn:Hgen;
    [| by apply (layered_same_pieces s) ..].
  pose proof (generated_pieces_layer _ _ _ _ _ _ _ _ _ Hgen) as Hfresh.
  match goal with |- layered (checkCompletion ?st) =>
    destruct (checkCompletion_keeps st) as (Hps & _) end.
  unfold layered. rewrite Hps. cbn [pieces setPieces].
  intros p' [i Hp']%list_elem_of_In%list_elem_of_lookup.
  unfold scatter in Hp'. rewrite list_lookup_imap in Hp'.
  destruct (Result.pieces res !! i) as [p |] eqn:Hp; [| done].
  cbn [fmap option_fmap option_map] in Hp'. injection Hp' as <-.
  cbn [PuzzlePiece.with_currentPos PuzzlePiece.isLocked PuzzlePiece.zIndex].
  destruct (Hfresh p) as [-> ->]; [| lia].
  apply list_elem_of_In, list_elem_of_lookup. by exists i.
Qed.

(** Locked pieces stay at the back: in every state of the component a
    locked piece has z-index 0 and every other piece a z-index of at least
    1, so that a locked piece lies strictly below every piece that is not
    locked. *)
Theorem locked_pieces_at_back s :
  reachable SNAP_TOLERANCE s ->
  Forall (fun p => if PuzzlePiece.isLocked p then PuzzlePiece.zIndex p = 0%Z
                   else (1 <= PuzzlePiece.zIndex p)%Z) (pieces s).
Proof.
  intros Hreach. apply List.Forall_forall. fold (layered s).
  induction Hreach as [| e s Hreach IH | ? ? ? ? ? ? ? ? ? s _ IH].
  - intros r [].
  - apply handle_layered; [by apply (reachable_gameInv SNAP_TOLERANCE) | auto].
  - by apply initGame_layered.
Qed.

(** The clock does not run on a solved puzzle: in no state of the
    component are [completed] and [timerActive] both set. *)
Theorem timer_stopped_when_completed s :
  reachable SNAP_TOLERANCE s -> completed s && timerActive s = false.
Proof.
  intros Hreach.
  assert (Hcheck : forall st, completed st && timerActive st = false ->
            completed (checkCompletion st) && timerActive (checkCompletion st) = false).
  { intros st Hst. unfold checkCompletion.
    by destruct ((0 <? length (pieces st))%nat && _). }
  assert (Htimer : forall now st, completed st && timerActive st = false ->
            completed (startTimer now st) && timerActive (startTimer now st) = false).
  { intros now st Hst. unfold startTimer.
    destruct (timerActive st) eqn:Ht, (completed st) eqn:Hc; cbn;
      rewrite ?Ht, ?Hc; auto; done. }
  induction Hreach as [| e s _ IH | ? ? ? ? ? ? ? ? ? s _ IH].
  - done.
  - destruct e as [pieceId cx cy bl bt now | cx cy rect |]; cbn [handle].
    + unfold handlePointerDown.
      destruct (findPiece pieceId (pieces s)) as [piece |]; [| by apply Htimer].
      destruct (PuzzlePiece.isLocked piece); [by apply Htimer |].
      apply Hcheck. cbn [completed timerActive setDragOffset setDraggedPieceId setPieces].
      by apply Htimer.
    + unfold handlePointerMove.
      destruct (draggedPieceId s); [| done].
      destruct rect as [[bl bt] |]; [| done].
      by apply Hcheck.
    + unfold handlePointerUp.
      destruct (draggedPieceId s); [| done].
      destruct (findPiece _ _); [| done].
      destruct (Rlt_dec _ _); [| done].
      cbn [completed timerActive setDraggedPieceId]. by apply Hcheck.
  - unfold initGame.
    destruct (generatePuzzle _ _ _ _ _ _ _ _); [| done ..].
    by apply Hcheck.
Qed.
End DisplayInvariants.

Lemma locked_pieces_at_back_example :
  Forall (fun p => if PuzzlePiece.isLocked p then PuzzlePiece.zIndex p = 0%Z
                   else (1 <= PuzzlePiece.zIndex p)%Z)
    (Game.pieces
       (handle 20 Game.PointerUp
          (handle 20 (Game.PointerDown 4 150 150 0 0 1000)
             (initGame (fun _ => (1 / 2)%R)
                (generatePuzzle (2 / 10) (fun _ => 0%R) (fun _ _ => true)
                   (fun _ _ => "data:,"%string) (Some (300, 300)%R) 3 300 300)
                initialState)))).
Proof.
  apply (locked_pieces_at_back 20).
  do 2 apply reachable_handle. apply reachable_initGame. apply reachable_initial.
Defined.

Lemma timer_stopped_when_completed_example :
  Game.timerActive (handle 20 (Game.PointerDown 0 0 0 0 0 1000) initialState) = true
  /\ Game.completed (handle 20 (Game.PointerDown 0 0 0 0 0 1000) initialState)
     && Game.timerActive (handle 20 (Game.PointerDown 0 0 0 0 0 1000) initialState)
     = false.
Proof.
  split; [reflexivity |].
  apply (timer_stopped_when_completed 20).
  apply reachable_handle. apply reachable_initial.
Defined.
